(** * stac_publisher.publisher: the polling cycle of the STAC publisher

    A shallow embedding of [src/stac_publisher/publisher.py] and the
    properties of its specification.

    The program talks to two collaborators: an Elasticsearch index (the
    Source) through [elasticsearch_dsl], and a RabbitMQ producer (the Sink).
    Both are part of the [World] the cycle runs in; every call to them is
    written to a call log, and each call may raise. *)

From stdpp Require Import base option list strings gmap.
From Stdlib Require Import ZArith Lia.

Local Open Scope Z_scope.
Local Open Scope string_scope.
Local Open Scope list_scope.

(** ** Values and documents *)

(** Scalar field values of an indexed document. [VTime] is an instant,
    counted in microseconds (the resolution of Python's [datetime]). *)
Inductive Value :=
  | VStr (s : string)
  | VInt (n : Z)
  | VTime (t : Z).

#[global] Instance Value_eq_dec : EqDecision Value.
Proof. solve_decision. Defined.

Definition Value_to_sum (v : Value) : string + (Z + Z) :=
  match v with
  | VStr s => inl s
  | VInt n => inr (inl n)
  | VTime t => inr (inr t)
  end.

Definition Value_of_sum (x : string + (Z + Z)) : Value :=
  match x with
  | inl s => VStr s
  | inr (inl n) => VInt n
  | inr (inr t) => VTime t
  end.

#[global] Instance Value_countable : Countable Value.
Proof.
  apply (inj_countable' Value_to_sum Value_of_sum).
  intros []; reflexivity.
Defined.

(** A document of the index (and a hit of a search): its fields, keyed by
    field path. [hit[k]] in the source is the lookup [hit !! k]. *)
Abbreviation Doc := (gmap string Value).

(** The outbound message, the dict [{"uri": .., "description_path": ..}]. *)
Record Message := mkMessage {
  uri : Value;
  description_path : Value;
}.

#[global] Instance Message_eq_dec : EqDecision Message.
Proof. solve_decision. Defined.

(** ** Python dictionaries

    [messages = {}] in [get_messages] is a Python dict: keys are unique and
    iteration ([values()]) follows insertion order, which decides the order
    of publication. *)
Module PyDict.

Definition t := list (Value * Message).

Definition empty : t := [].

Definition keys (d : t) : list Value := d.*1.

Definition values (d : t) : list Message := d.*2.

(** [k in d] *)
Definition mem (k : Value) (d : t) : bool := bool_decide (k ∈ keys d).

(** [d[k]] *)
Fixpoint get (k : Value) (d : t) : option Message :=
  match d with
  | [] => None
  | (k', m) :: rest => if decide (k' = k) then Some m else get k rest
  end.

(** [d[k] = m]: an existing key keeps its place, a new one goes last. *)
Fixpoint set (k : Value) (m : Message) (d : t) : t :=
  match d with
  | [] => [(k, m)]
  | (k', m') :: rest =>
      if decide (k' = k) then (k', m) :: rest else (k', m') :: set k m rest
  end.

End PyDict.

(** ** elasticsearch_dsl requests *)

(** [strftime("%Y-%m-%dT%H:%M:%S")] writes a [datetime] down to the second
    and drops the microseconds. The text names one whole second; it is kept
    as the number of that second. *)
Inductive Stamp := IsoSeconds (s : Z).

#[global] Instance Stamp_eq_dec : EqDecision Stamp.
Proof. solve_decision. Defined.

Definition micros_per_second : Z := 1000000.

Definition strftime (t : Z) : Stamp := IsoSeconds (t / micros_per_second).

(** The first instant of the second a text names. What instant of that
    second a bound stands for is up to the Source ([Source.read_bound]). *)
Definition stamp_instant (s : Stamp) : Z :=
  let 'IsoSeconds n := s in n * micros_per_second.

(** [timedelta(minutes=m)], counted in microseconds on the integers: a
    cutoff age so large that Python's [timedelta], or the subtraction from
    [datetime.now()], overflows is outside this model. *)
Definition timedelta_minutes (m : Z) : Z := m * 60 * micros_per_second.

(** A query clause, as [Q(name, **kwargs)] builds it: the clause name and
    its keyword arguments. For ["term"] every keyword is a field with the
    value it must equal; for ["terms"] the keyword is a field with the list
    of accepted values; for ["range"] the keyword is a field with a dict
    from comparison operator to bound. The keywords of a clause are all
    that [filter] and [query] pass on: a number of hits is not among
    them, it belongs to the [Search] itself. *)
Inductive Clause :=
  | Term (fields : list (string * Value))
  | Terms (field : string) (accepted : list Value)
  | Range (field : string) (bounds : list (string * Stamp)).

#[global] Instance Clause_eq_dec : EqDecision Clause.
Proof. solve_decision. Defined.

(** [Search]: the filter clauses (a conjunction) and the number of hits the
    request asks for, when it asks ([Search.extra(size=..)] or a slice). *)
Record Search := mkSearch {
  s_filters : list Clause;
  s_size : option nat;
}.

#[global] Instance Search_eq_dec : EqDecision Search.
Proof. solve_decision. Defined.

(** [Search(using=.., index=..)] *)
Definition Search_new : Search := {| s_filters := []; s_size := None |}.

(** [s.filter(name, **kwargs)]: a copy of [s] with one more clause. *)
Definition Search_filter (s : Search) (c : Clause) : Search :=
  {| s_filters := s_filters s ++ [c]; s_size := s_size s |}.

(** The painless script [ctx._source.<field> = '<value>']. *)
Inductive Script := Assign (field : string) (v : Value).

#[global] Instance Script_eq_dec : EqDecision Script.
Proof. solve_decision. Defined.

Record UpdateByQuery := mkUpdate {
  u_query : list Clause;
  u_script : option Script;
}.

#[global] Instance UpdateByQuery_eq_dec : EqDecision UpdateByQuery.
Proof. solve_decision. Defined.

(** [UpdateByQuery(using=.., index=..)] *)
Definition UpdateByQuery_new : UpdateByQuery :=
  {| u_query := []; u_script := None |}.

(** [u.query(name, **kwargs)] *)
Definition UpdateByQuery_query (u : UpdateByQuery) (c : Clause) : UpdateByQuery :=
  {| u_query := u_query u ++ [c]; u_script := u_script u |}.

(** [u.script(source=.., lang="painless")] *)
Definition UpdateByQuery_script (u : UpdateByQuery) (s : Script) : UpdateByQuery :=
  {| u_query := u_query u; u_script := Some s |}.

(** ** The Source: how the index answers requests *)
Module Source.

(** Range operators of the query language. *)
Definition compare_with (op : string) : option (Z → Z → bool) :=
  if decide (op = "lte") then Some Z.leb
  else if decide (op = "lt") then Some Z.ltb
  else if decide (op = "gte") then Some Z.geb
  else if decide (op = "gt") then Some Z.gtb
  else None.

(** A bound holds of a timestamp when the comparison with the first
    instant of the bound's second does; [read_bound] below turns a bound
    that the Source rounds up into one of this kind. *)
Definition bound_holds (t : Z) (b : string * Stamp) : bool :=
  match compare_with b.1 with
  | Some cmp => cmp t (stamp_instant b.2)
  | None => false
  end.

Definition field_is (d : Doc) (fv : string * Value) : bool :=
  bool_decide (d !! fv.1 = Some fv.2).

(** A document passes a term clause when it has every field of the
    clause with the value given there (a Source that refuses a term
    clause over two fields returns no such document either). *)
Definition clause_match (c : Clause) (d : Doc) : bool :=
  match c with
  | Term fields => forallb (field_is d) fields
  | Terms field accepted =>
      match d !! field with
      | Some v => bool_decide (v ∈ accepted)
      | None => false
      end
  | Range field bounds =>
      match d !! field with
      | Some (VTime t) => forallb (bound_holds t) bounds
      | _ => false
      end
  end.

Definition matches (cs : list Clause) (d : Doc) : bool :=
  forallb (fun c => clause_match c d) cs.

(** A clause the Source refuses: a range with an operator it does not
    know. A term clause over several fields is let through and read as a
    conjunction ([clause_match]); an index that refuses such a clause
    fails every search of [init]. *)
Definition clause_ok (c : Clause) : bool :=
  match c with
  | Range _ bounds => forallb (fun b => bool_decide (is_Some (compare_with b.1))) bounds
  | _ => true
  end.

Definition request_ok (cs : list Clause) : bool := forallb clause_ok cs.

(** How the Source completes a bound written to the second; the program
    does not say, and indexes differ. One that rounds up takes a [gt] or
    [lte] bound as the last instant of the second named. On timestamps that
    count whole microseconds, being at or before that last instant is being
    before the first instant of the next second, and being after it is
    being at or after that first instant: the bound is read as [lt], or as
    [gte], of the next second. A [gte] or [lt] bound stands for the first
    instant of its second, and so does every bound for a Source that does
    not round up. *)
Definition next_second (s : Stamp) : Stamp :=
  let 'IsoSeconds n := s in IsoSeconds (n + 1).

Definition read_bound (rounds_up : bool) (b : string * Stamp) : string * Stamp :=
  if rounds_up then
    if decide (b.1 = "lte") then ("lt", next_second b.2)
    else if decide (b.1 = "gt") then ("gte", next_second b.2)
    else b
  else b.

Definition read_clause (rounds_up : bool) (c : Clause) : Clause :=
  match c with
  | Range field bounds => Range field (read_bound rounds_up <$> bounds)
  | _ => c
  end.

(** A request as the Source reads it. *)
Definition read (rounds_up : bool) (s : Search) : Search :=
  {| s_filters := read_clause rounds_up <$> s_filters s; s_size := s_size s |}.

Definition read_update (rounds_up : bool) (u : UpdateByQuery) : UpdateByQuery :=
  {| u_query := read_clause rounds_up <$> u_query u; u_script := u_script u |}.

(** The hits of a search: the matching documents, in index order, cut to
    the requested number of hits, or to the Source's own page size when
    the request names none. *)
Definition search_hits (default_size : nat) (s : Search) (index : list Doc) : list Doc :=
  take (default default_size (s_size s)) (List.filter (matches (s_filters s)) index).

Definition run_script (s : option Script) (d : Doc) : Doc :=
  match s with
  | Some (Assign field v) => <[field := v]> d
  | None => d
  end.

(** Update-by-query: every matching document goes through the script. *)
Definition update_index (u : UpdateByQuery) (index : list Doc) : list Doc :=
  (fun d => if matches (u_query u) d then run_script (u_script u) d else d) <$> index.

End Source.

(** ** The world of one cycle *)

(** What a call to a collaborator can raise, and what indexing a hit with
    a missing key raises. *)
Inductive Exn :=
  | KeyError (key : string)
  | RequestError
  | TransportError (code : nat).

#[global] Instance Exn_eq_dec : EqDecision Exn.
Proof. solve_decision. Defined.

(** Calls to the collaborators. *)
Inductive Call :=
  | CSearch (s : Search)
  | CUpdate (u : UpdateByQuery)
  | COpen
  | CPublish (routing_key : string) (m : Message)
  | CClose.

(** What a call came back with. *)
Inductive Reply :=
  | Hits (hits : list Doc)
  | Done
  | Failed (e : Exn).

Record World := mkWorld {
  index : list Doc;                  (* the documents of the Source *)
  page_size : nat;                   (* hits per request when none is asked *)
  rounds_up : bool;                  (* how the Source completes a bound *)
  queue : list (string * Message);   (* what the Sink has received *)
  clock : Z;                         (* datetime.now(), in microseconds *)
  log : list (Call * Reply);         (* calls made so far, oldest first *)
  faults : nat → option Exn;         (* the n-th call raises [faults n] *)
}.

Definition with_log (l : list (Call * Reply)) (w : World) : World :=
  {| index := index w; page_size := page_size w; rounds_up := rounds_up w;
     queue := queue w; clock := clock w; log := l; faults := faults w |}.

Definition with_index (i : list Doc) (w : World) : World :=
  {| index := i; page_size := page_size w; rounds_up := rounds_up w;
     queue := queue w; clock := clock w; log := log w; faults := faults w |}.

Definition with_queue (q : list (string * Message)) (w : World) : World :=
  {| index := index w; page_size := page_size w; rounds_up := rounds_up w;
     queue := q; clock := clock w; log := log w; faults := faults w |}.

Definition record (c : Call) (r : Reply) (w : World) : World :=
  with_log (log w ++ [(c, r)]) w.

(** The fault, if any, that awaits the next call. *)
Definition next_fault (w : World) : option Exn := faults w (length (log w)).

(** The calls made between two worlds of one execution. *)
Definition calls_since (w w' : World) : list (Call * Reply) :=
  drop (length (log w)) (log w').

(** What the Source of a world returns for a search, and what it makes of
    its documents for an update. *)
Definition found (w : World) (s : Search) : list Doc :=
  Source.search_hits (page_size w) (Source.read (rounds_up w) s) (index w).

Definition updated (w : World) (u : UpdateByQuery) : list Doc :=
  Source.update_index (Source.read_update (rounds_up w) u) (index w).

(** ** Computations: state and exceptions *)

Inductive Outcome (A : Type) :=
  | Ok (a : A)
  | Raise (e : Exn).
Arguments Ok {A} a.
Arguments Raise {A} e.

Definition M (A : Type) : Type := World → Outcome A * World.

Definition ret {A} (a : A) : M A := fun w => (Ok a, w).

Definition bind {A B} (m : M A) (k : A → M B) : M B :=
  fun w =>
    match m w with
    | (Ok a, w') => k a w'
    | (Raise e, w') => (Raise e, w')
    end.

Definition lift {A} (o : Outcome A) : M A := fun w => (o, w).

Declare Scope py_scope.
Delimit Scope py_scope with py.
Notation "'let*' x ':=' m 'in' k" := (bind m (fun x => k))
  (at level 10, x name, m at level 100, k at level 200) : py_scope.
Notation "m >>> k" := (bind m (fun _ => k))
  (at level 65, right associativity) : py_scope.

(** [query.execute()] on a [Search]. *)
Definition Search_execute (s : Search) : M (list Doc) :=
  fun w =>
    match next_fault w with
    | Some e => (Raise e, record (CSearch s) (Failed e) w)
    | None =>
        if Source.request_ok (s_filters s) then
          let hits := found w s in
          (Ok hits, record (CSearch s) (Hits hits) w)
        else (Raise RequestError, record (CSearch s) (Failed RequestError) w)
    end.

(** [update_query.execute()] on an [UpdateByQuery]. *)
Definition UpdateByQuery_execute (u : UpdateByQuery) : M unit :=
  fun w =>
    match next_fault w with
    | Some e => (Raise e, record (CUpdate u) (Failed e) w)
    | None =>
        if Source.request_ok (u_query u) then
          (Ok tt, record (CUpdate u) Done (with_index (updated w u) w))
        else (Raise RequestError, record (CUpdate u) (Failed RequestError) w)
    end.

(** [datetime.now()] *)
Definition datetime_now : M Z := fun w => (Ok (clock w), w).

(** Modelled from the spec: [RabbitProducer] of [stac_publisher/rabbit.py],
    which is not among the sources. The Sink has an open/close lifecycle and
    one operation [publish(routing_key, payload)] that returns nothing on
    success and raises on a transport or channel failure; a published
    message is not taken back. The connection is released on every exit
    path, and leaving the [with] block does not swallow the exception. *)
Module RabbitProducer.

Definition enter : M unit :=
  fun w =>
    match next_fault w with
    | Some e => (Raise e, record COpen (Failed e) w)
    | None => (Ok tt, record COpen Done w)
    end.

Definition publish (routing_key : string) (m : Message) : M unit :=
  fun w =>
    match next_fault w with
    | Some e => (Raise e, record (CPublish routing_key m) (Failed e) w)
    | None =>
        (Ok tt, record (CPublish routing_key m) Done
                  (with_queue (queue w ++ [(routing_key, m)]) w))
    end.

Definition exit : M unit :=
  fun w => (Ok tt, record CClose Done w).

(** [with self.producer as producer: body] *)
Definition with_producer {A} (body : M A) : M A :=
  fun w =>
    match enter w with
    | (Raise e, w1) => (Raise e, w1)
    | (Ok _, w1) =>
        let '(r, w2) := body w1 in
        let '(_, w3) := exit w2 in
        (r, w3)
    end.

End RabbitProducer.

(** ** The publisher *)

(** The keys of the configuration file that the cycle reads. *)
Record Conf := mkConf {
  ID_KEY : string;
  CUTOFF : Z;            (* minutes *)
  ROUTING_KEY : string;
}.

Record Publisher := mkPublisher {
  conf : Conf;
  search : Search;
  update : UpdateByQuery;
}.

Local Open Scope py_scope.

(** [Publisher.__init__]: the base search and the base update. *)
Definition init (c : Conf) : Publisher :=
  {| conf := c;
     search := Search_filter Search_new (Term [("status", VStr "new"); ("size", VInt 10000)]);
     update := UpdateByQuery_new |}.

(** The loop of [get_messages] over the hits. *)
Fixpoint messages_of_hits (id_key : string) (hits : list Doc) (messages : PyDict.t)
  : Outcome PyDict.t :=
  match hits with
  | [] => Ok messages
  | hit :: rest =>
      match hit !! id_key with
      | None => Raise (KeyError id_key)
      | Some sur_id =>
          if PyDict.mem sur_id messages then messages_of_hits id_key rest messages
          else
            match hit !! "description_path" with
            | None => Raise (KeyError "description_path")
            | Some path =>
                messages_of_hits id_key rest
                  (PyDict.set sur_id {| uri := sur_id; description_path := path |} messages)
            end
      end
  end.

(** The query [get_messages] sends. *)
Definition range_query (self : Publisher) (operator : string) (cutoff : Z) : Search :=
  Search_filter (search self) (Range "mod_time" [(operator, strftime cutoff)]).

Definition get_messages (self : Publisher) (operator : string) (cutoff : Z) : M PyDict.t :=
  let query := range_query self operator cutoff in
  let* hits := Search_execute query in
  lift (messages_of_hits (ID_KEY (conf self)) hits PyDict.empty).

Definition filter_messages (old_messages young_messages : PyDict.t) : list Message :=
  List.filter (fun old_message => negb (PyDict.mem (uri old_message) young_messages))
              (PyDict.values old_messages).

Fixpoint publish_each (routing_key : string) (messages : list Message) : M unit :=
  match messages with
  | [] => ret tt
  | message :: rest =>
      RabbitProducer.publish routing_key message >>> publish_each routing_key rest
  end.

Definition publish_messages (self : Publisher) (messages : list Message) : M unit :=
  RabbitProducer.with_producer (publish_each (ROUTING_KEY (conf self)) messages).

(** The request [update_subs] sends. *)
Definition update_query (self : Publisher) (messages : list Message) : UpdateByQuery :=
  let ids := uri <$> messages in
  UpdateByQuery_script
    (UpdateByQuery_query (update self) (Terms ("properties." +:+ ID_KEY (conf self)) ids))
    (Assign "status" (VStr "queued")).

Definition update_subs (self : Publisher) (messages : list Message) : M unit :=
  UpdateByQuery_execute (update_query self messages).

Definition run (self : Publisher) : M unit :=
  let* now := datetime_now in
  let cutoff := now - timedelta_minutes (CUTOFF (conf self)) in
  let* old_messages := get_messages self "lte" cutoff in
  let* young_messages := get_messages self "gt" cutoff in
  let messages := filter_messages old_messages young_messages in
  publish_messages self messages >>>
  update_subs self messages.

(** ** Vocabulary of the properties *)

(** A candidate map as [get_messages] builds them: every message sits under
    its own [uri], and no key occurs twice. *)
Definition candidate (d : PyDict.t) : Prop :=
  NoDup (PyDict.keys d) ∧ ∀ k m, (k, m) ∈ d → uri m = k.

(** The identifiers of a list of messages. *)
Definition uris (messages : list Message) : list Value := uri <$> messages.

(** The message [get_messages] builds from one hit. *)
Definition message_of_hit (id_key : string) (hit : Doc) : option Message :=
  match hit !! id_key, hit !! "description_path" with
  | Some sur_id, Some path => Some {| uri := sur_id; description_path := path |}
  | _, _ => None
  end.

(** The cutoff of the cycle that starts in world [w]. *)
Definition cutoff_of (c : Conf) (w : World) : Z :=
  clock w - timedelta_minutes (CUTOFF c).

(** The field of a document that the bulk update of [update_subs] matches
    against the identifiers. *)
Definition update_key (c : Conf) : string := "properties." +:+ ID_KEY c.

(** What the script of [update_subs] makes of a document. *)
Definition mark_queued (d : Doc) : Doc := <["status" := VStr "queued"]> d.

(** A successful publish call, as the log shows it. *)
Definition published (routing_key : string) (m : Message) : Call * Reply :=
  (CPublish routing_key m, Done).

(** What a world [w'] shows of an execution that started in [w]: the
    calls made, what the Sink holds and what the Source holds. *)
Definition observed (w w' : World) (calls : list (Call * Reply))
    (q : list (string * Message)) (idx : list Doc) : Prop :=
  log w' = log w ++ calls ∧ queue w' = q ∧ index w' = idx.

(** The ways one cycle can end. [run] is a straight line of calls, so an
    execution is fixed by the first call that raises, if one does. *)
Section Cycle.

Variables (self : Publisher) (w : World).

Let id_key := ID_KEY (conf self).
Let rk := ROUTING_KEY (conf self).
Let q_old := range_query self "lte" (cutoff_of (conf self) w).
Let q_young := range_query self "gt" (cutoff_of (conf self) w).
Let h_old := found w q_old.
Let h_young := found w q_young.

Inductive Cycle : Outcome unit → World → Prop :=
  | old_query_failed e w' :
      observed w w' [(CSearch q_old, Failed e)] (queue w) (index w) →
      Cycle (Raise e) w'
  | old_hits_rejected e w' :
      messages_of_hits id_key h_old PyDict.empty = Raise e →
      observed w w' [(CSearch q_old, Hits h_old)] (queue w) (index w) →
      Cycle (Raise e) w'
  | young_query_failed old e w' :
      messages_of_hits id_key h_old PyDict.empty = Ok old →
      observed w w' [(CSearch q_old, Hits h_old); (CSearch q_young, Failed e)]
               (queue w) (index w) →
      Cycle (Raise e) w'
  | young_hits_rejected old e w' :
      messages_of_hits id_key h_old PyDict.empty = Ok old →
      messages_of_hits id_key h_young PyDict.empty = Raise e →
      observed w w' [(CSearch q_old, Hits h_old); (CSearch q_young, Hits h_young)]
               (queue w) (index w) →
      Cycle (Raise e) w'
  | open_failed old young e w' :
      messages_of_hits id_key h_old PyDict.empty = Ok old →
      messages_of_hits id_key h_young PyDict.empty = Ok young →
      observed w w'
               [(CSearch q_old, Hits h_old); (CSearch q_young, Hits h_young);
                (COpen, Failed e)]
               (queue w) (index w) →
      Cycle (Raise e) w'
  | publish_failed old young n m e w' :
      messages_of_hits id_key h_old PyDict.empty = Ok old →
      messages_of_hits id_key h_young PyDict.empty = Ok young →
      filter_messages old young !! n = Some m →
      observed w w'
               ([(CSearch q_old, Hits h_old); (CSearch q_young, Hits h_young);
                 (COpen, Done)]
                ++ (published rk <$> take n (filter_messages old young))
                ++ [(CPublish rk m, Failed e); (CClose, Done)])
               (queue w ++ (pair rk <$> take n (filter_messages old young)))
               (index w) →
      Cycle (Raise e) w'
  | update_failed old young e w' :
      messages_of_hits id_key h_old PyDict.empty = Ok old →
      messages_of_hits id_key h_young PyDict.empty = Ok young →
      observed w w'
               ([(CSearch q_old, Hits h_old); (CSearch q_young, Hits h_young);
                 (COpen, Done)]
                ++ (published rk <$> filter_messages old young)
                ++ [(CClose, Done);
                    (CUpdate (update_query self (filter_messages old young)), Failed e)])
               (queue w ++ (pair rk <$> filter_messages old young))
               (index w) →
      Cycle (Raise e) w'
  | completed old young w' :
      messages_of_hits id_key h_old PyDict.empty = Ok old →
      messages_of_hits id_key h_young PyDict.empty = Ok young →
      observed w w'
               ([(CSearch q_old, Hits h_old); (CSearch q_young, Hits h_young);
                 (COpen, Done)]
                ++ (published rk <$> filter_messages old young)
                ++ [(CClose, Done);
                    (CUpdate (update_query self (filter_messages old young)), Done)])
               (queue w ++ (pair rk <$> filter_messages old young))
               (updated w (update_query self (filter_messages old young))) →
      Cycle (Ok tt) w'.

End Cycle.

(** ** Concrete worlds *)

(** A document of the specification's data model (identifier, modification
    time, status, payload reference), laid out in the fields the program
    reads: the identifier under [id_key], where [get_messages] looks it up,
    and under [properties.<id_key>], where the update of [update_subs]
    matches it. *)
Definition document (id_key id : string) (mod_time : Z) (status path : string) : Doc :=
  <[id_key := VStr id]>
    (<["properties." +:+ id_key := VStr id]>
       (<["mod_time" := VTime mod_time]>
          (<["status" := VStr status]>
             (<["description_path" := VStr path]> ∅)))).

(** The same document with a field [size] of value 10000. *)
Definition sized (d : Doc) : Doc := <["size" := VInt 10000]> d.

Definition minute : Z := 60 * micros_per_second.

(** The instant T of the scenario: 2022-08-24T12:00:00, in microseconds. *)
Definition T : Z := 1661342400 * micros_per_second.

Definition scenario_conf : Conf :=
  {| ID_KEY := "id"; CUTOFF := 5; ROUTING_KEY := "stac" |}.

Definition doc_a : Doc := document "id" "a" (T - 10 * minute) "new" "/a".
Definition doc_b : Doc := document "id" "b" (T - 1 * minute) "new" "/b".

Definition message_a : Message :=
  {| uri := VStr "a"; description_path := VStr "/a" |}.

Definition no_faults : nat → option Exn := fun _ => None.

(** The [n]-th call raises [e], every other call goes through. *)
Definition fault_at (n : nat) (e : Exn) : nat → option Exn :=
  fun k => if decide (k = n) then Some e else None.

(** A world at the start of a cycle, with a Source that takes every bound
    as the first instant of its second. *)
Definition world_of (docs : list Doc) (now : Z) (f : nat → option Exn) : World :=
  {| index := docs; page_size := 10; rounds_up := false; queue := [];
     clock := now; log := []; faults := f |}.

(** The same world with a Source that rounds [gt] and [lte] bounds up. *)
Definition rounding_up (w : World) : World :=
  {| index := index w; page_size := page_size w; rounds_up := true;
     queue := queue w; clock := clock w; log := log w; faults := faults w |}.

(** The Source of the scenario at time T. *)
Definition scenario_world : World := world_of [doc_a; doc_b] T no_faults.

(** The scenario with documents that carry [size = 10000]. *)
Definition sized_world (f : nat → option Exn) : World :=
  world_of [sized doc_a; sized doc_b] T f.

(** A publisher whose base search filters on the status alone. *)
Definition status_only (c : Conf) : Publisher :=
  {| conf := c;
     search := Search_filter Search_new (Term [("status", VStr "new")]);
     update := UpdateByQuery_new |}.

(** Two hits for one identifier. *)
Definition first_hit : Doc := sized (document "id" "a" (T - 10 * minute) "new" "/first").
Definition second_hit : Doc := sized (document "id" "a" (T - 9 * minute) "new" "/second").

Definition status_of (d : Doc) : option Value := d !! "status".

(** Log entries of a bulk update, and log entries of a call that raised. *)
Definition is_update (x : Call * Reply) : Prop :=
  match x.1 with CUpdate _ => True | _ => False end.

Definition is_failed (x : Call * Reply) : Prop :=
  match x.2 with Failed _ => True | _ => False end.

(** What the Sink received between two worlds of one execution. *)
Definition sent_since (w w' : World) : list (string * Message) :=
  drop (length (queue w)) (queue w').

(** The identifier of each hit, as [hit[ID_KEY]] reads it. *)
Definition hit_ids (id_key : string) (hits : list Doc) : list (option Value) :=
  (fun h : Doc => h !! id_key) <$> hits.

(** A hit with no identifier, and a second hit for "a" with no payload
    reference. *)
Definition anonymous_hit : Doc := sized (delete "id" doc_a).
Definition bare_hit : Doc := sized (delete "description_path" doc_a).

(** The world ten minutes after a cycle on the scenario, with the Source
    as that cycle left it. *)
Definition later_world : World :=
  world_of (index (run (status_only scenario_conf) scenario_world).2)
           (T + 10 * minute) no_faults.

(** A Source that holds document "b" alone: nothing is old enough at T. *)
Definition idle_world : World := world_of [doc_b] T no_faults.

(** A document modified 0.4 s into the second of the cutoff of a cycle that
    starts 0.7 s after T. *)
Definition late : Doc := sized (document "id" "c" (T - 5 * minute + 400000) "new" "/c").

Definition message_c : Message :=
  {| uri := VStr "c"; description_path := VStr "/c" |}.


(** A publisher whose base search returns documents of status "new" only,
    however the Source completes its bounds. *)
Definition selects_new (self : Publisher) : Prop :=
  ∀ (up : bool) (d : Doc),
    Source.matches (s_filters (Source.read up (search self))) d = true →
    status_of d = Some (VStr "new").

Definition message_b : Message :=
  {| uri := VStr "b"; description_path := VStr "/b" |}.

(** Projections of a world that went through [record] and the like. *)
Ltac world_simpl :=
  cbn [fst snd index queue log clock faults page_size rounds_up
       record with_log with_index with_queue].

(** ** Lemmas on dictionaries and on the loop over the hits *)
Section Dict.

Implicit Types (d acc : PyDict.t) (k : Value) (m : Message).

Lemma mem_true k d : PyDict.mem k d = true ↔ k ∈ PyDict.keys d.
Proof. unfold PyDict.mem. apply bool_decide_eq_true. Qed.

Lemma mem_false k d : PyDict.mem k d = false ↔ k ∉ PyDict.keys d.
Proof. unfold PyDict.mem. apply bool_decide_eq_false. Qed.

Lemma set_fresh k m d : k ∉ PyDict.keys d → PyDict.set k m d = d ++ [(k, m)].
Proof.
  induction d as [|[k' m'] d IH]; simpl; intros Hk; [done|].
  apply not_elem_of_cons in Hk as [Hne Hk].
  destruct (decide (k' = k)); [congruence|]. by rewrite IH.
Qed.

Lemma keys_snoc d k m : PyDict.keys (d ++ [(k, m)]) = PyDict.keys d ++ [k].
Proof. unfold PyDict.keys. by rewrite fmap_app. Qed.

Lemma get_None k d : PyDict.get k d = None ↔ k ∉ PyDict.keys d.
Proof.
  induction d as [|[k' m'] d IH]; simpl.
  - split; [intros _; apply not_elem_of_nil | done].
  - destruct (decide (k' = k)) as [->|Hne].
    + split; [done|]. intros H. exfalso. apply H. left.
    + rewrite IH, not_elem_of_cons. split; [by intros ? | by intros [_ ?]].
Qed.

Lemma get_snoc k k' m' d :
  PyDict.get k (d ++ [(k', m')]) =
    match PyDict.get k d with
    | Some m => Some m
    | None => if decide (k' = k) then Some m' else None
    end.
Proof.
  induction d as [|[k0 m0] d IH]; simpl; [done|].
  destruct (decide (k0 = k)); [done|]. apply IH.
Qed.

Lemma get_elem_of k m d : PyDict.get k d = Some m → (k, m) ∈ d.
Proof.
  induction d as [|[k' m'] d IH]; simpl; [done|].
  destruct (decide (k' = k)) as [->|].
  - intros [= ->]. left.
  - intros H. right. by apply IH.
Qed.

(** What the loop of [get_messages] computes, for any dictionary it
    starts from. *)
Lemma messages_of_hits_acc id_key hits : ∀ acc msgs,
  messages_of_hits id_key hits acc = Ok msgs →
  (NoDup (PyDict.keys acc) → NoDup (PyDict.keys msgs))
  ∧ ((∀ k m, (k, m) ∈ acc → uri m = k) → ∀ k m, (k, m) ∈ msgs → uri m = k)
  ∧ (∀ k, k ∈ PyDict.keys msgs ↔
          k ∈ PyDict.keys acc ∨ ∃ h, h ∈ hits ∧ h !! id_key = Some k)
  ∧ (∀ k m, PyDict.get k msgs = Some m →
        PyDict.get k acc = Some m
        ∨ ((k ∉ PyDict.keys acc)
           ∧ ∃ pre h post, hits = pre ++ (h :: post)
               ∧ (∀ h', h' ∈ pre → h' !! id_key ≠ Some k)
               ∧ h !! id_key = Some k
               ∧ message_of_hit id_key h = Some m)).
Proof.
  induction hits as [|hit rest IH]; intros acc msgs; simpl.
  - intros [= <-]. repeat split; try done.
    + intros ?; by left.
    + intros [?|(h & Hh & _)]; [done|]. by apply elem_of_nil in Hh.
    + intros k m ?; by left.
  - destruct (hit !! id_key) as [sur_id|] eqn:Hid; [|done].
    destruct (PyDict.mem sur_id acc) eqn:Hmem.
    + apply mem_true in Hmem. intros H.
      destruct (IH _ _ H) as (Hnd & Huri & Hkeys & Hget).
      split; [done|]. split; [done|]. split.
      * intros k. rewrite Hkeys. split.
        -- intros [?|(h & Hh & Hk)]; [by left|].
           right. exists h. split; [by right | done].
        -- intros [?|(h & Hh & Hk)]; [by left|].
           apply elem_of_cons in Hh as [->|Hh].
           ++ left. congruence.
           ++ right. eauto.
      * intros k m Hm. destruct (Hget _ _ Hm) as [?|(Hk & pre & h & post & -> & Hpre & Hh & Hmsg)];
          [by left|].
        right. split; [done|]. exists (hit :: pre), h, post.
        split; [done|]. split; [|done].
        intros h' Hh'. apply elem_of_cons in Hh' as [->|Hh']; [|by apply Hpre].
        rewrite Hid. intros [= ->]. done.
    + apply mem_false in Hmem.
      destruct (hit !! "description_path") as [path|] eqn:Hpath; [|done].
      rewrite (set_fresh _ _ _ Hmem). intros H.
      destruct (IH _ _ H) as (Hnd & Huri & Hkeys & Hget).
      split; [|split; [|split]].
      * intros Hacc. apply Hnd. rewrite keys_snoc.
        apply NoDup_app. split; [done|]. split.
        -- intros x Hx Hx'. apply list_elem_of_singleton in Hx' as ->. done.
        -- apply NoDup_singleton.
      * intros Hacc. apply Huri. intros k m Hm.
        apply elem_of_app in Hm as [Hm|Hm]; [by apply Hacc|].
        apply list_elem_of_singleton in Hm. by inversion Hm.
      * intros k. rewrite Hkeys, keys_snoc, elem_of_app, list_elem_of_singleton.
        split.
        -- intros [[?| ->]|(h & Hh & Hk)].
           ++ by left.
           ++ right. exists hit. split; [left | done].
           ++ right. exists h. split; [by right | done].
        -- intros [?|(h & Hh & Hk)]; [left; by left|].
           apply elem_of_cons in Hh as [->|Hh].
           ++ left. right. congruence.
           ++ right. eauto.
      * intros k m Hm. destruct (Hget _ _ Hm) as [Hacc|(Hk & pre & h & post & -> & Hpre & Hh & Hmsg)].
        -- rewrite get_snoc in Hacc.
           destruct (PyDict.get k acc) as [m'|] eqn:Hk; [by left|].
           destruct (decide (sur_id = k)) as [<-|]; [|done].
           injection Hacc as <-. right. split; [done|].
           exists [], hit, rest. split; [done|]. split.
           ++ intros h' Hh'. by apply elem_of_nil in Hh'.
           ++ split; [done|]. unfold message_of_hit. by rewrite Hid, Hpath.
        -- rewrite keys_snoc, elem_of_app, list_elem_of_singleton in Hk.
           right. split; [intros ?; apply Hk; by left|].
           exists (hit :: pre), h, post. split; [done|]. split; [|done].
           intros h' Hh'. apply elem_of_cons in Hh' as [->|Hh']; [|by apply Hpre].
           rewrite Hid. intros [= ->]. apply Hk. by right.
Qed.

Lemma messages_of_hits_candidate id_key hits msgs :
  messages_of_hits id_key hits PyDict.empty = Ok msgs → candidate msgs.
Proof.
  intros H. destruct (messages_of_hits_acc _ _ _ _ H) as (Hnd & Huri & _).
  split.
  - apply Hnd, NoDup_nil_2.
  - apply Huri. intros k m Hm. by apply elem_of_nil in Hm.
Qed.

(** [filter_messages], element by element. *)
Lemma elem_of_filter_messages old young m :
  m ∈ filter_messages old young ↔
  m ∈ PyDict.values old ∧ uri m ∉ PyDict.keys young.
Proof.
  unfold filter_messages.
  rewrite list_elem_of_In, filter_In, <- list_elem_of_In, negb_true_iff, mem_false.
  tauto.
Qed.

Lemma uris_values_candidate d :
  (∀ k m, (k, m) ∈ d → uri m = k) → uris (PyDict.values d) = PyDict.keys d.
Proof.
  unfold uris, PyDict.values, PyDict.keys.
  induction d as [|[k m] d IH]; simpl; intros H; [done|].
  rewrite (H k m) by left. f_equal. apply IH.
  intros k' m' Hm. apply H. by right.
Qed.

Lemma NoDup_uris_filter (f : Message → bool) (l : list Message) :
  NoDup (uris l) → NoDup (uris (List.filter f l)).
Proof.
  unfold uris. induction l as [|m l IH]; simpl; intros H; [done|].
  apply NoDup_cons in H as [Hm Hl].
  destruct (f m); simpl; [|by apply IH].
  apply NoDup_cons. split; [|by apply IH].
  intros Hin. apply Hm.
  apply list_elem_of_fmap in Hin as (m' & -> & Hm').
  apply list_elem_of_fmap. exists m'. split; [done|].
  apply list_elem_of_In in Hm'. apply filter_In in Hm' as [Hm' _].
  by apply list_elem_of_In.
Qed.

End Dict.

(** ** Lemmas on the calls of one cycle *)
Section Calls.

Implicit Types (w : World) (self : Publisher).

Lemma calls_since_app w w' calls :
  log w' = log w ++ calls → calls_since w w' = calls.
Proof. intros H. unfold calls_since. rewrite H. apply drop_app_length. Qed.

Lemma Search_execute_inv s w :
  let hits := found w s in
  (∃ e, Search_execute s w = (Raise e, record (CSearch s) (Failed e) w))
  ∨ Search_execute s w = (Ok hits, record (CSearch s) (Hits hits) w).
Proof.
  unfold Search_execute. destruct (next_fault w) as [e|]; [left; eauto|].
  destruct (Source.request_ok _); [by right | left; eauto].
Qed.

Lemma UpdateByQuery_execute_inv u w :
  (∃ e, UpdateByQuery_execute u w = (Raise e, record (CUpdate u) (Failed e) w))
  ∨ UpdateByQuery_execute u w =
      (Ok tt, record (CUpdate u) Done (with_index (updated w u) w)).
Proof.
  unfold UpdateByQuery_execute. destruct (next_fault w) as [e|]; [left; eauto|].
  destruct (Source.request_ok _); [by right | left; eauto].
Qed.

(** The publishing loop: it hands over a prefix of the messages, the
    whole list unless a publish raises. *)
Lemma publish_each_inv rk ms : ∀ w,
  let r := (publish_each rk ms w).1 in
  let w' := (publish_each rk ms w).2 in
  index w' = index w ∧ page_size w' = page_size w ∧ rounds_up w' = rounds_up w
  ∧ clock w' = clock w ∧ faults w' = faults w
  ∧ ((r = Ok tt
      ∧ log w' = log w ++ (published rk <$> ms)
      ∧ queue w' = queue w ++ (pair rk <$> ms))
     ∨ (∃ n m e, r = Raise e ∧ ms !! n = Some m
         ∧ log w' = log w ++ (published rk <$> take n ms) ++ [(CPublish rk m, Failed e)]
         ∧ queue w' = queue w ++ (pair rk <$> take n ms))).
Proof.
  induction ms as [|m ms IH]; intros w; simpl.
  - repeat split; try done. left. by rewrite !app_nil_r.
  - unfold bind, RabbitProducer.publish.
    destruct (next_fault w) as [e|]; simpl.
    + repeat split; try done. right. exists 0%nat, m, e. simpl.
      by rewrite app_nil_r.
    + specialize (IH (record (CPublish rk m) Done (with_queue (queue w ++ [(rk, m)]) w))).
      simpl in IH. destruct IH as (Hi & Hp & Hu & Hc & Hf & IH).
      destruct (publish_each rk ms _) as [r w'] eqn:E. simpl in *.
      repeat split; try done.
      destruct IH as [(-> & Hl & Hq)|(n & m' & e & -> & Hn & Hl & Hq)].
      * left. rewrite Hl, Hq, <- !app_assoc. done.
      * right. exists (S n), m', e. simpl. rewrite Hl, Hq, <- !app_assoc. done.
Qed.

Lemma publish_messages_inv self ms w :
  let rk := ROUTING_KEY (conf self) in
  let r := (publish_messages self ms w).1 in
  let w' := (publish_messages self ms w).2 in
  index w' = index w ∧ page_size w' = page_size w ∧ rounds_up w' = rounds_up w
  ∧ clock w' = clock w ∧ faults w' = faults w
  ∧ ((∃ e, r = Raise e ∧ log w' = log w ++ [(COpen, Failed e)] ∧ queue w' = queue w)
     ∨ (∃ n m e, r = Raise e ∧ ms !! n = Some m
         ∧ log w' = log w ++ [(COpen, Done)] ++ (published rk <$> take n ms)
                      ++ [(CPublish rk m, Failed e); (CClose, Done)]
         ∧ queue w' = queue w ++ (pair rk <$> take n ms))
     ∨ (r = Ok tt
        ∧ log w' = log w ++ [(COpen, Done)] ++ (published rk <$> ms) ++ [(CClose, Done)]
        ∧ queue w' = queue w ++ (pair rk <$> ms))).
Proof.
  unfold publish_messages, RabbitProducer.with_producer, RabbitProducer.enter.
  destruct (next_fault w) as [e|]; simpl.
  - repeat split; try done. left. eauto.
  - pose proof (publish_each_inv (ROUTING_KEY (conf self)) ms (record COpen Done w)) as H.
    simpl in H. destruct H as (Hi & Hp & Hu & Hc & Hf & H).
    destruct (publish_each _ ms _) as [r w'] eqn:E. simpl in *.
    repeat split; try done. right.
    destruct H as [(-> & Hl & Hq)|(n & m & e & -> & Hn & Hl & Hq)].
    + right. rewrite Hl, Hq, <- !app_assoc. done.
    + left. exists n, m, e. rewrite Hl, Hq, <- !app_assoc. done.
Qed.

(** Every execution of [run] ends in one of the eight ways of [Cycle]. *)
Lemma run_Cycle self w : Cycle self w (run self w).1 (run self w).2.
Proof.
  unfold run, bind, datetime_now, get_messages, bind, lift.
  fold (cutoff_of (conf self) w).
  set (q_old := range_query self "lte" _).
  set (q_young := range_query self "gt" _).
  destruct (Search_execute_inv q_old w) as [[e ->]| ->].
  { simpl. by apply old_query_failed. }
  set (h_old := found w q_old).
  destruct (messages_of_hits _ h_old _) as [old|e] eqn:Hold; simpl.
  2:{ by apply old_hits_rejected. }
  destruct (Search_execute_inv q_young (record (CSearch q_old) (Hits h_old) w))
    as [[e ->]| ->].
  { simpl. eapply young_query_failed; [done|]. split; [|done]. simpl.
    by rewrite <- app_assoc. }
  change (found (record _ _ w) q_young) with (found w q_young).
  simpl. set (h_young := found w q_young).
  destruct (messages_of_hits _ h_young _) as [young|e] eqn:Hyoung; simpl.
  2:{ eapply young_hits_rejected; [done..|]. split; [|done]. simpl.
      by rewrite <- app_assoc. }
  set (ms := filter_messages old young).
  set (w2 := record (CSearch q_young) _ _).
  pose proof (publish_messages_inv self ms w2) as H. simpl in H.
  destruct (publish_messages self ms w2) as [r w3] eqn:E. simpl in H.
  destruct H as (Hi & Hp & Hu & Hc & Hf & H).
  destruct H as [(e & -> & Hl & Hq)|[(n & m & e & -> & Hn & Hl & Hq)|(-> & Hl & Hq)]]; simpl.
  - eapply open_failed; [done..|]. split; [|done]. rewrite Hl. simpl.
    by rewrite <- !app_assoc.
  - eapply publish_failed; [done..|]. split; [|done]. rewrite Hl. simpl.
    by rewrite <- !app_assoc.
  - unfold update_subs.
    destruct (UpdateByQuery_execute_inv (update_query self ms) w3) as [[e ->]| ->]; simpl.
    + eapply update_failed; [done..|]. split; [|done]. simpl. rewrite Hl. simpl.
      rewrite <- !app_assoc. simpl. by rewrite <- !app_assoc.
    + eapply completed; [done..|]. split; [|split; [done|]].
      2:{ world_simpl. unfold updated. by rewrite Hi, Hu. }
      simpl. rewrite Hl. simpl. rewrite <- !app_assoc. simpl. by rewrite <- !app_assoc.
Qed.

End Calls.

(** ** Lemmas on the bulk update *)
Section Update.

Implicit Types (c : Conf) (d : Doc) (ms : list Message) (w : World).

Lemma update_key_not_status c : update_key c ≠ "status".
Proof. unfold update_key. simpl. discriminate. Qed.

(** The documents the request of [update_subs] selects. *)
Lemma matches_update_query c ms d :
  Source.matches (u_query (update_query (init c) ms)) d = true ↔
  ∃ v, d !! update_key c = Some v ∧ v ∈ uris ms.
Proof.
  unfold update_query, update_key, uris. simpl. rewrite andb_true_r.
  destruct (d !! ("properties." +:+ ID_KEY c)) as [v|].
  - rewrite bool_decide_eq_true. split; [eauto|]. by intros (v' & [= <-] & ?).
  - split; [done|]. by intros (v' & [=] & ?).
Qed.

Lemma update_index_lookup c ms (idx : list Doc) i :
  Source.update_index (update_query (init c) ms) idx !! i =
    (fun d => if Source.matches (u_query (update_query (init c) ms)) d
              then mark_queued d else d) <$> idx !! i.
Proof. unfold Source.update_index. by rewrite list_lookup_fmap. Qed.

Lemma matches_mark_queued c ms d :
  Source.matches (u_query (update_query (init c) ms)) (mark_queued d) =
  Source.matches (u_query (update_query (init c) ms)) d.
Proof.
  unfold update_query, mark_queued. simpl.
  rewrite lookup_insert_ne; [done|].
  intros H. by apply (update_key_not_status c).
Qed.

Lemma update_index_idempotent c ms (idx : list Doc) :
  Source.update_index (update_query (init c) ms)
    (Source.update_index (update_query (init c) ms) idx)
  = Source.update_index (update_query (init c) ms) idx.
Proof.
  set (u := update_query (init c) ms).
  assert (Heq : ∀ l, Source.update_index u l =
            (fun d => if Source.matches (u_query u) d then mark_queued d else d) <$> l)
    by done.
  rewrite !Heq, <- list_fmap_compose.
  apply list_fmap_ext. intros _ d _. cbv [compose]. subst u.
  destruct (Source.matches (u_query (update_query (init c) ms)) d) eqn:Hd.
  - rewrite matches_mark_queued, Hd. unfold mark_queued. apply insert_insert_eq.
  - by rewrite Hd.
Qed.

(** [update_subs] sends one request; the Source answers it unless the
    call raises. *)
Lemma update_subs_inv c ms w :
  let u := update_query (init c) ms in
  (∃ e, update_subs (init c) ms w = (Raise e, record (CUpdate u) (Failed e) w))
  ∨ (next_fault w = None
     ∧ update_subs (init c) ms w =
         (Ok tt, record (CUpdate u) Done (with_index (Source.update_index u (index w)) w))).
Proof.
  unfold update_subs, UpdateByQuery_execute.
  destruct (next_fault w) as [e|]; [left; eauto|]. right. done.
Qed.

(** The request of [update_subs] has no range clause: the Source reads it
    as it is written. *)
Lemma updated_update_query self ms w :
  update self = UpdateByQuery_new →
  updated w (update_query self ms)
  = Source.update_index (update_query (init (conf self)) ms) (index w).
Proof. unfold updated, update_query. by intros ->. Qed.

End Update.

(** * The claims *)

(** ** Status Reconciler *)




(** C5. Marking is idempotent: after [update_subs] has run for a list of
    messages, running it again for the same list leaves the Source as the
    first run left it, so every document has the status it had after one
    run. *)
Theorem C5_update_subs_idempotent (c : Conf) (ms : list Message) (w w1 : World) :
  update_subs (init c) ms w = (Ok tt, w1) →
  index (update_subs (init c) ms w1).2 = index w1
  ∧ status_of <$> index (update_subs (init c) ms w1).2 = status_of <$> index w1.
Proof.
  intros H1.
  assert (Hidx : index w1 = Source.update_index (update_query (init c) ms) (index w)).
  { destruct (update_subs_inv c ms w) as [[e He]|[_ He]]; rewrite He in H1.
    - discriminate.
    - by injection H1 as <-. }
  assert (index (update_subs (init c) ms w1).2 = index w1) as Heq.
  { destruct (update_subs_inv c ms w1) as [[e ->]|[_ ->]]; simpl; [done|].
    rewrite Hidx. apply update_index_idempotent. }
  split; [done | by rewrite Heq].
Qed.

Lemma C5_witness :
  ∃ w1, update_subs (init scenario_conf) [message_a] scenario_world = (Ok tt, w1)
        ∧ index (update_subs (init scenario_conf) [message_a] w1).2 = index w1.
Proof.
  eexists. split; [reflexivity|].
  apply (C5_update_subs_idempotent scenario_conf [message_a] scenario_world).
  reflexivity.
Defined.




(** ** Lemmas on the shape of the call log *)
Section Shape.

Context {A : Type}.

(** A list has one decomposition around its only element with [P]. *)
Lemma split_at_unique (P : A → Prop) (l1 l2 pre post : list A) (a b : A) :
  l1 ++ a :: l2 = pre ++ b :: post →
  P b → Forall (fun x => ¬ P x) l1 → Forall (fun x => ¬ P x) l2 →
  pre = l1 ∧ b = a ∧ post = l2.
Proof.
  intros Heq Hb H1 H2. revert pre Heq.
  induction H1 as [|y l1 Hy H1 IH]; intros [|x pre] Heq; simpl in Heq.
  - by injection Heq as -> ->.
  - injection Heq as -> ->. exfalso.
    apply Forall_app in H2 as [_ H2]. apply Forall_cons in H2 as [H2 _]. done.
  - injection Heq as -> _. done.
  - injection Heq as -> Heq. destruct (IH _ Heq) as (-> & -> & ->). done.
Qed.

Lemma last_apart (l1 l2 : list A) (x y : A) :
  l1 ++ l2 ++ [x; y] = (l1 ++ l2 ++ [x]) ++ y :: [].
Proof. by rewrite <- !app_assoc. Qed.

Lemma not_in_Forall (P : A → Prop) (l pre post : list A) (b : A) :
  l = pre ++ b :: post → P b → Forall (fun x => ¬ P x) l → False.
Proof.
  intros -> Hb H. apply Forall_app in H as [_ H].
  apply Forall_cons in H as [H _]. done.
Qed.

End Shape.

Section Entries.

Lemma published_not_update rk ms :
  Forall (fun x => ¬ is_update x) (published rk <$> ms).
Proof. apply Forall_fmap, Forall_forall. intros m _ []. Qed.

Lemma published_not_failed rk ms :
  Forall (fun x => ¬ is_failed x) (published rk <$> ms).
Proof. apply Forall_fmap, Forall_forall. intros m _ []. Qed.

End Entries.

Create HintDb calls.
#[local] Hint Resolve published_not_update published_not_failed : calls.

(** Settles [Forall (fun x => ¬ P x) l] for a literal piece of the log. *)
Ltac no_such_entry :=
  solve [ repeat first
            [ apply Forall_nil_2
            | apply Forall_app_2
            | apply Forall_cons_2; [solve [intros []] |]
            | solve [eauto with calls] ] ].

(** The request matches on [properties.<ID_KEY>] alone: a document that
    carries identifier "a" in the top-level field only is not selected by
    the update for the message of "a". *)
Lemma update_subs_matches_properties_field :
  let top_only : Doc := <["id" := VStr "a"]> (<["status" := VStr "new"]> ∅) in
  index (update_subs (init scenario_conf) [message_a]
           (world_of [top_only] T no_faults)).2 = [top_only].
Proof. vm_compute. reflexivity. Qed.

(** ** Cycle Orchestrator *)

(** C4. Within one cycle publishing comes before marking. Whenever the
    bulk update of [update_subs] is called, it is the last call of the
    cycle; before it the Sink was opened, every filtered message was
    handed to it, in order, and it was closed; the update is keyed on
    these same messages, and the Sink holds them all. In particular, when
    the update raises, the cycle raises that error with all the messages
    already in the Sink and the Source unchanged. *)
Theorem C4_publish_before_mark (self : Publisher) (w : World)
    (pre post : list (Call * Reply)) (u : UpdateByQuery) (rep : Reply) :
  calls_since w (run self w).2 = pre ++ (CUpdate u, rep) :: post →
  ∃ h_old h_young old young,
    messages_of_hits (ID_KEY (conf self)) h_old PyDict.empty = Ok old
    ∧ messages_of_hits (ID_KEY (conf self)) h_young PyDict.empty = Ok young
    ∧ let messages := filter_messages old young in
      let rk := ROUTING_KEY (conf self) in
      pre = [(CSearch (range_query self "lte" (cutoff_of (conf self) w)), Hits h_old);
             (CSearch (range_query self "gt" (cutoff_of (conf self) w)), Hits h_young);
             (COpen, Done)]
            ++ (published rk <$> messages) ++ [(CClose, Done)]
      ∧ u = update_query self messages
      ∧ post = []
      ∧ queue (run self w).2 = queue w ++ (pair rk <$> messages)
      ∧ ∀ e, rep = Failed e →
             (run self w).1 = Raise e ∧ index (run self w).2 = index w.
Proof.
  intros Hcalls. pose proof (run_Cycle self w) as HC.
  destruct (run self w) as [r w']. simpl in *.
  inversion HC as [ e ? (Hl & Hq & Hi) | e ? Ho (Hl & Hq & Hi)
                  | old e ? Ho (Hl & Hq & Hi) | old e ? Ho Hy (Hl & Hq & Hi)
                  | old young e ? Ho Hy (Hl & Hq & Hi)
                  | old young n m e ? Ho Hy Hn (Hl & Hq & Hi)
                  | old young e ? Ho Hy (Hl & Hq & Hi)
                  | old young ? Ho Hy (Hl & Hq & Hi) ]; subst;
    apply calls_since_app in Hl; rewrite Hl in Hcalls;
    try (exfalso; eapply (not_in_Forall is_update); [exact Hcalls | exact I | no_such_entry]).
  - rewrite last_apart in Hcalls.
    apply (split_at_unique is_update) in Hcalls as (-> & Heq & ->);
      [| exact I | no_such_entry | no_such_entry].
    injection Heq as -> ->.
    eexists _, _, old, young. repeat split; try done.
    by injection H as ->.
  - rewrite last_apart in Hcalls.
    apply (split_at_unique is_update) in Hcalls as (-> & Heq & ->);
      [| exact I | no_such_entry | no_such_entry].
    injection Heq as -> ->.
    eexists _, _, old, young. repeat split; done.
Qed.

Lemma C4_witness :
  (run (init scenario_conf) (sized_world (fault_at 5 (TransportError 503)))).1
  = Raise (TransportError 503).
Proof.
  set (W := sized_world (fault_at 5 (TransportError 503))).
  assert (Hcalls : calls_since W (run (init scenario_conf) W).2 =
            removelast (calls_since W (run (init scenario_conf) W).2)
            ++ (CUpdate (update_query (init scenario_conf) [message_a]),
                Failed (TransportError 503)) :: []).
  { vm_compute. reflexivity. }
  destruct (C4_publish_before_mark (init scenario_conf) W _ _ _ _ Hcalls)
    as (h_old & h_young & old & young & _ & _ & _ & _ & _ & _ & Hrep).
  exact (proj1 (Hrep (TransportError 503) eq_refl)).
Defined.

(** ** Error handling *)

(** C9. Nothing is caught inside the core. When a call of the cycle to the
    Source or to the Sink raises, be it a search, a publish or the bulk
    update, [run] raises that same error, and no call follows it but the
    release of the Sink. Likewise [get_messages] raises the error of its
    search and returns no candidate map at all. *)
Theorem C9_errors_propagate (self : Publisher) (w : World) (call : Call) (e : Exn) :
  (∀ pre post,
      calls_since w (run self w).2 = pre ++ (call, Failed e) :: post →
      (run self w).1 = Raise e ∧ (post = [] ∨ post = [(CClose, Done)]))
  ∧ (∀ operator cutoff,
      (call, Failed e) ∈ calls_since w (get_messages self operator cutoff w).2 →
      (get_messages self operator cutoff w).1 = Raise e).
Proof.
  split.
  - intros pre post Hcalls. pose proof (run_Cycle self w) as HC.
    destruct (run self w) as [r w']. simpl in *.
    inversion HC as [ e0 ? (Hl & Hq & Hi) | e0 ? Ho (Hl & Hq & Hi)
                    | old e0 ? Ho (Hl & Hq & Hi) | old e0 ? Ho Hy (Hl & Hq & Hi)
                    | old young e0 ? Ho Hy (Hl & Hq & Hi)
                    | old young n m e0 ? Ho Hy Hn (Hl & Hq & Hi)
                    | old young e0 ? Ho Hy (Hl & Hq & Hi)
                    | old young ? Ho Hy (Hl & Hq & Hi) ]; subst;
      apply calls_since_app in Hl; rewrite Hl in Hcalls;
      try (exfalso; eapply (not_in_Forall is_failed); [exact Hcalls | exact I | no_such_entry]).
    + apply (split_at_unique is_failed [] []) in Hcalls as (-> & [= -> ->] & ->);
        [| exact I | no_such_entry | no_such_entry].
      split; [done | by left].
    + apply (split_at_unique is_failed [_] []) in Hcalls as (-> & [= -> ->] & ->);
        [| exact I | no_such_entry | no_such_entry].
      split; [done | by left].
    + apply (split_at_unique is_failed [_; _] []) in Hcalls as (-> & [= -> ->] & ->);
        [| exact I | no_such_entry | no_such_entry].
      split; [done | by left].
    + rewrite app_assoc in Hcalls.
      apply (split_at_unique is_failed) in Hcalls as (-> & [= -> ->] & ->);
        [| exact I | no_such_entry | no_such_entry].
      split; [done | by right].
    + rewrite last_apart in Hcalls.
      apply (split_at_unique is_failed) in Hcalls as (-> & [= -> ->] & ->);
        [| exact I | no_such_entry | no_such_entry].
      split; [done | by left].
  - intros operator cutoff. unfold get_messages, bind, lift.
    destruct (Search_execute_inv (range_query self operator cutoff) w) as [[e0 ->]| ->].
    + rewrite (calls_since_app w _ [(CSearch (range_query self operator cutoff), Failed e0)])
        by done.
      intros [= -> ->]%list_elem_of_singleton. done.
    + set (hits := found _ _).
      destruct (messages_of_hits _ hits _); simpl;
        rewrite (calls_since_app w _ [(CSearch (range_query self operator cutoff), Hits hits)])
          by done;
        by intros [=]%list_elem_of_singleton.
Qed.

Lemma C9_witness :
  (run (init scenario_conf) (sized_world (fault_at 3 (TransportError 504)))).1
  = Raise (TransportError 504)
  ∧ (get_messages (init scenario_conf) "lte" T
       (sized_world (fault_at 0 (TransportError 500)))).1
    = Raise (TransportError 500).
Proof.
  split.
  - set (W := sized_world (fault_at 3 (TransportError 504))).
    assert (Hcalls : calls_since W (run (init scenario_conf) W).2 =
              take 3 (calls_since W (run (init scenario_conf) W).2)
              ++ (CPublish "stac" message_a, Failed (TransportError 504))
                   :: [(CClose, Done)]).
    { vm_compute. reflexivity. }
    exact (proj1 (proj1 (C9_errors_propagate (init scenario_conf) W _ _) _ _ Hcalls)).
  - set (W := sized_world (fault_at 0 (TransportError 500))).
    apply (proj2 (C9_errors_propagate (init scenario_conf) W
                    (CSearch (range_query (init scenario_conf) "lte" T))
                    (TransportError 500))).
    vm_compute. left.
Defined.

(** Breaks [H : x ∈ l], for a piece of the log [l], into one goal per entry
    that [x] may be. *)
Ltac split_log H :=
  unfold published in H;
  repeat first
    [ apply elem_of_nil in H; destruct H
    | apply elem_of_cons in H as [H|H]
    | apply elem_of_app in H as [H|H]
    | apply list_elem_of_fmap in H as (? & H & ?) ];
  simplify_eq.

(** ** Lemmas on the Selector's queries *)
Section Selector.

Implicit Types (self : Publisher) (w : World) (d : Doc) (s : Search) (up : bool).

Lemma search_hits_matches n s (idx : list Doc) d :
  d ∈ Source.search_hits n s idx →
  Source.matches (s_filters s) d = true ∧ d ∈ idx.
Proof.
  unfold Source.search_hits. intros Hd.
  apply subseteq_take in Hd. apply list_elem_of_In, filter_In in Hd as [Hin Hm].
  split; [done | by apply list_elem_of_In].
Qed.

Lemma found_matches w s d :
  d ∈ found w s →
  Source.matches (s_filters (Source.read (rounds_up w) s)) d = true ∧ d ∈ index w.
Proof. apply search_hits_matches. Qed.

Lemma matches_range_query self operator cutoff d :
  Source.matches (s_filters (range_query self operator cutoff)) d = true ↔
  Source.matches (s_filters (search self)) d = true
  ∧ Source.clause_match (Range "mod_time" [(operator, strftime cutoff)]) d = true.
Proof.
  unfold range_query, Search_filter, Source.matches. cbn [s_filters].
  rewrite forallb_app. cbn [forallb]. rewrite andb_true_r. apply andb_true_iff.
Qed.

(** The same for the query as the Source reads it. *)
Lemma matches_read_range_query up self operator cutoff d :
  Source.matches (s_filters (Source.read up (range_query self operator cutoff))) d = true ↔
  Source.matches (s_filters (Source.read up (search self))) d = true
  ∧ Source.clause_match
      (Source.read_clause up (Range "mod_time" [(operator, strftime cutoff)])) d = true.
Proof.
  unfold range_query, Search_filter, Source.read, Source.matches. cbn [s_filters].
  rewrite fmap_app, forallb_app. cbn [fmap list_fmap forallb].
  rewrite andb_true_r. apply andb_true_iff.
Qed.

Lemma bound_lte t stamp :
  Source.bound_holds t ("lte", stamp) = (t <=? stamp_instant stamp)%Z.
Proof. reflexivity. Qed.

Lemma bound_gt t stamp :
  Source.bound_holds t ("gt", stamp) = (t >? stamp_instant stamp)%Z.
Proof. reflexivity. Qed.

Lemma bound_lt t stamp :
  Source.bound_holds t ("lt", stamp) = (t <? stamp_instant stamp)%Z.
Proof. reflexivity. Qed.

Lemma bound_gte t stamp :
  Source.bound_holds t ("gte", stamp) = (t >=? stamp_instant stamp)%Z.
Proof. reflexivity. Qed.

Lemma stamp_instant_next stamp :
  stamp_instant (Source.next_second stamp) = (stamp_instant stamp + 1000000)%Z.
Proof. destruct stamp. unfold stamp_instant, Source.next_second, micros_per_second. lia. Qed.

Lemma range_lte d stamp :
  Source.clause_match (Range "mod_time" [("lte", stamp)]) d = true ↔
  ∃ t, d !! "mod_time" = Some (VTime t) ∧ (t ≤ stamp_instant stamp)%Z.
Proof.
  unfold Source.clause_match. destruct (d !! "mod_time") as [[| |t]|].
  1,2,4: split; [done | by intros (t' & [=] & _)].
  cbn [forallb]. rewrite bound_lte, andb_true_r, Z.leb_le.
  split; [eauto|]. by intros (t' & [= <-] & ?).
Qed.

Lemma range_gt d stamp :
  Source.clause_match (Range "mod_time" [("gt", stamp)]) d = true ↔
  ∃ t, d !! "mod_time" = Some (VTime t) ∧ (stamp_instant stamp < t)%Z.
Proof.
  unfold Source.clause_match. destruct (d !! "mod_time") as [[| |t]|].
  1,2,4: split; [done | by intros (t' & [=] & _)].
  cbn [forallb]. rewrite bound_gt, andb_true_r, Z.gtb_gt. split.
  - intros H. exists t. split; [done | lia].
  - intros (t' & [= <-] & ?). lia.
Qed.

(** The two range clauses of a cycle as a Source that rounds up reads
    them: the second named by the bound is on the at-or-before side. *)
Lemma range_lte_rounded_up d stamp :
  Source.clause_match (Source.read_clause true (Range "mod_time" [("lte", stamp)])) d = true ↔
  ∃ t, d !! "mod_time" = Some (VTime t) ∧ (t < stamp_instant stamp + 1000000)%Z.
Proof.
  unfold Source.clause_match, Source.read_clause. cbn [fmap list_fmap].
  change (Source.read_bound true ("lte", stamp)) with ("lt", Source.next_second stamp).
  destruct (d !! "mod_time") as [[| |t]|].
  1,2,4: split; [done | by intros (t' & [=] & _)].
  cbn [forallb]. rewrite bound_lt, andb_true_r, Z.ltb_lt, stamp_instant_next.
  split; [eauto|]. by intros (t' & [= <-] & ?).
Qed.

Lemma range_gt_rounded_up d stamp :
  Source.clause_match (Source.read_clause true (Range "mod_time" [("gt", stamp)])) d = true ↔
  ∃ t, d !! "mod_time" = Some (VTime t) ∧ (stamp_instant stamp + 1000000 ≤ t)%Z.
Proof.
  unfold Source.clause_match, Source.read_clause. cbn [fmap list_fmap].
  change (Source.read_bound true ("gt", stamp)) with ("gte", Source.next_second stamp).
  destruct (d !! "mod_time") as [[| |t]|].
  1,2,4: split; [done | by intros (t' & [=] & _)].
  cbn [forallb]. rewrite bound_gte, andb_true_r, Z.geb_le, stamp_instant_next.
  split; [eauto|]. by intros (t' & [= <-] & ?).
Qed.

(** Whatever the Source makes of the bound, the instant it compares with
    lies in the second the bound names, and it is the same instant for the
    at-or-before and for the strictly-after clause. *)
Lemma range_sides up d stamp :
  ∃ bound : Z,
    (stamp_instant stamp ≤ bound < stamp_instant stamp + 1000000)%Z
    ∧ (up = false → bound = stamp_instant stamp)
    ∧ (up = true → bound = (stamp_instant stamp + 999999)%Z)
    ∧ (Source.clause_match (Source.read_clause up (Range "mod_time" [("lte", stamp)])) d
         = true ↔ ∃ t, d !! "mod_time" = Some (VTime t) ∧ (t ≤ bound)%Z)
    ∧ (Source.clause_match (Source.read_clause up (Range "mod_time" [("gt", stamp)])) d
         = true ↔ ∃ t, d !! "mod_time" = Some (VTime t) ∧ (bound < t)%Z).
Proof.
  destruct up.
  - exists (stamp_instant stamp + 999999)%Z.
    split; [lia|]. split; [done|]. split; [done|].
    rewrite range_lte_rounded_up, range_gt_rounded_up.
    split; split; intros (t & Ht & H); exists t; (split; [done | lia]).
  - exists (stamp_instant stamp). split; [lia|]. split; [done|]. split; [done|].
    split; [apply range_lte | apply range_gt].
Qed.

Lemma range_queries_differ self c1 c2 :
  range_query self "lte" c1 ≠ range_query self "gt" c2.
Proof.
  unfold range_query, Search_filter. intros [= H].
  apply app_inj_tail in H as [_ [=]].
Qed.

(** The searches of a cycle and their answers. *)
Lemma cycle_searches self w s hits :
  (CSearch s, Hits hits) ∈ calls_since w (run self w).2 →
  let cutoff := cutoff_of (conf self) w in
  (s = range_query self "lte" cutoff
   ∧ hits = found w (range_query self "lte" cutoff))
  ∨ (s = range_query self "gt" cutoff
     ∧ hits = found w (range_query self "gt" cutoff)).
Proof.
  intros Hin. pose proof (run_Cycle self w) as HC.
  destruct (run self w) as [r w']. simpl in *.
  inversion HC as [ e ? (Hl & _) | e ? Ho (Hl & _)
                  | old e ? Ho (Hl & _) | old e ? Ho Hy (Hl & _)
                  | old young e ? Ho Hy (Hl & _)
                  | old young n m e ? Ho Hy Hn (Hl & _)
                  | old young e ? Ho Hy (Hl & _)
                  | old young ? Ho Hy (Hl & _) ]; subst;
    apply calls_since_app in Hl; rewrite Hl in Hin; clear Hl HC;
    split_log Hin; auto.
Qed.

Lemma cycle_search_queries self w s rep :
  (CSearch s, rep) ∈ calls_since w (run self w).2 →
  s = range_query self "lte" (cutoff_of (conf self) w)
  ∨ s = range_query self "gt" (cutoff_of (conf self) w).
Proof.
  intros Hin. pose proof (run_Cycle self w) as HC.
  destruct (run self w) as [r w']. simpl in *.
  inversion HC as [ e ? (Hl & _) | e ? Ho (Hl & _)
                  | old e ? Ho (Hl & _) | old e ? Ho Hy (Hl & _)
                  | old young e ? Ho Hy (Hl & _)
                  | old young n m e ? Ho Hy Hn (Hl & _)
                  | old young e ? Ho Hy (Hl & _)
                  | old young ? Ho Hy (Hl & _) ]; subst;
    apply calls_since_app in Hl; rewrite Hl in Hin; clear Hl HC;
    split_log Hin; auto.
Qed.

(** A search of a cycle is its first call, the at-or-before search, or its
    second, the strictly-after search. *)
Lemma cycle_search_places self w i s rep :
  calls_since w (run self w).2 !! i = Some (CSearch s, rep) →
  (i = 0%nat ∧ s = range_query self "lte" (cutoff_of (conf self) w))
  ∨ (i = 1%nat ∧ s = range_query self "gt" (cutoff_of (conf self) w)).
Proof.
  intros Hi. pose proof (run_Cycle self w) as HC.
  destruct (run self w) as [r w']. simpl in *.
  inversion HC as [ e ? (Hl & _) | e ? Ho (Hl & _)
                  | old e ? Ho (Hl & _) | old e ? Ho Hy (Hl & _)
                  | old young e ? Ho Hy (Hl & _)
                  | old young n m e ? Ho Hy Hn (Hl & _)
                  | old young e ? Ho Hy (Hl & _)
                  | old young ? Ho Hy (Hl & _) ]; subst;
    apply calls_since_app in Hl; rewrite Hl in Hi; clear Hl HC;
    destruct i as [|[|i]]; simpl in Hi;
    first [ discriminate
          | solve [injection Hi as <- _; auto]
          | exfalso; apply list_elem_of_lookup_2 in Hi; split_log Hi ].
Qed.

(** A cycle that completes has had both searches answered, first the
    at-or-before search, then the strictly-after search. *)
Lemma cycle_completed_searches self w :
  (run self w).1 = Ok tt →
  ∃ h_old h_young rest,
    calls_since w (run self w).2
    = (CSearch (range_query self "lte" (cutoff_of (conf self) w)), Hits h_old)
        :: (CSearch (range_query self "gt" (cutoff_of (conf self) w)), Hits h_young)
        :: rest.
Proof.
  intros Hok. pose proof (run_Cycle self w) as HC.
  destruct (run self w) as [r w']. simpl in *. subst r.
  inversion HC as [ | | | | | | | old young ? Ho Hy (Hl & _) ]; subst.
  apply calls_since_app in Hl. rewrite Hl. eexists _, _, _. reflexivity.
Qed.

(** What the Sink was asked to publish in a cycle passed the filter. *)
Lemma cycle_publishes self w rk m rep :
  (CPublish rk m, rep) ∈ calls_since w (run self w).2 →
  let cutoff := cutoff_of (conf self) w in
  ∃ old young,
    messages_of_hits (ID_KEY (conf self))
      (found w (range_query self "lte" cutoff)) PyDict.empty = Ok old
    ∧ messages_of_hits (ID_KEY (conf self))
        (found w (range_query self "gt" cutoff)) PyDict.empty = Ok young
    ∧ m ∈ filter_messages old young.
Proof.
  intros Hin. pose proof (run_Cycle self w) as HC.
  destruct (run self w) as [r w']. simpl in *.
  inversion HC as [ e ? (Hl & _) | e ? Ho (Hl & _)
                  | old e ? Ho (Hl & _) | old e ? Ho Hy (Hl & _)
                  | old young e ? Ho Hy (Hl & _)
                  | old young n m' e ? Ho Hy Hn (Hl & _)
                  | old young e ? Ho Hy (Hl & _)
                  | old young ? Ho Hy (Hl & _) ]; subst;
    apply calls_since_app in Hl; rewrite Hl in Hin; clear Hl HC;
    split_log Hin; exists old, young; (split; [done|]); (split; [done|]).
  - match goal with H : _ ∈ take _ _ |- _ => by apply subseteq_take in H end.
  - by eapply list_elem_of_lookup_2.
  - done.
  - done.
Qed.

End Selector.

(** ** Stabilization Selector *)

(** Status gating: every hit of a query of [get_messages] has status
    "new". *)
Lemma selector_status_gating (c : Conf) (operator : string) (cutoff : Z)
    (n : nat) (idx : list Doc) (h : Doc) :
  h ∈ Source.search_hits n (range_query (init c) operator cutoff) idx →
  status_of h = Some (VStr "new").
Proof.
  intros Hh. apply search_hits_matches in Hh as [Hm _].
  apply matches_range_query in Hm as [Hm _].
  unfold init, Source.matches in Hm. cbn in Hm.
  apply andb_true_iff in Hm as [Hm _]. apply andb_true_iff in Hm as [Hm _].
  by apply bool_decide_eq_true in Hm.
Qed.

(** C10, amended. Both searches of a cycle carry the same bound, the cutoff
    written down to the second: a search of a cycle is either its first
    call, the at-or-before search, or its second call, the strictly-after
    search, and a cycle that completes has had both answered, in this
    order. No document is a hit of both. On which side a document modified inside the second
    of the cutoff, after its start, falls is the Source's choice: the
    strictly-after side when the Source takes the bound as the first
    instant of that second, the at-or-before side when it rounds the bound
    up to the last instant. *)
Theorem C10_one_cutoff_two_sides (self : Publisher) (w : World) :
  let cutoff := cutoff_of (conf self) w in
  let stamp := IsoSeconds (cutoff / 1000000) in
  let at_or_before := Search_filter (search self) (Range "mod_time" [("lte", stamp)]) in
  let strictly_after := Search_filter (search self) (Range "mod_time" [("gt", stamp)]) in
  let calls := calls_since w (run self w).2 in
  (∀ i s rep, calls !! i = Some (CSearch s, rep) →
      (i = 0%nat ∧ s = at_or_before) ∨ (i = 1%nat ∧ s = strictly_after))
  ∧ ((run self w).1 = Ok tt →
     ∃ h_old h_young rest,
       calls = (CSearch at_or_before, Hits h_old)
                 :: (CSearch strictly_after, Hits h_young) :: rest)
  ∧ (∀ h_old h_young d,
        (CSearch at_or_before, Hits h_old) ∈ calls →
        (CSearch strictly_after, Hits h_young) ∈ calls →
        d ∈ h_old → d ∈ h_young → False)
  ∧ (∀ d t,
        d !! "mod_time" = Some (VTime t) →
        (cutoff / 1000000 * 1000000 < t < (cutoff / 1000000 + 1) * 1000000)%Z →
        Source.clause_match
          (Source.read_clause (rounds_up w) (Range "mod_time" [("gt", stamp)])) d
        = negb (rounds_up w)
        ∧ Source.clause_match
            (Source.read_clause (rounds_up w) (Range "mod_time" [("lte", stamp)])) d
          = rounds_up w
        ∧ (rounds_up w = false →
           ∀ h_old, (CSearch at_or_before, Hits h_old) ∈ calls → d ∉ h_old)
        ∧ (rounds_up w = true →
           ∀ h_young, (CSearch strictly_after, Hits h_young) ∈ calls → d ∉ h_young)).
Proof.
  intros cutoff stamp at_or_before strictly_after calls.
  assert (Hold : at_or_before = range_query self "lte" cutoff) by done.
  assert (Hyoung : strictly_after = range_query self "gt" cutoff) by done.
  assert (Hstamp : stamp_instant stamp = (cutoff / 1000000 * 1000000)%Z) by done.
  assert (Hlte : ∀ h_old d, (CSearch at_or_before, Hits h_old) ∈ calls → d ∈ h_old →
            Source.clause_match
              (Source.read_clause (rounds_up w) (Range "mod_time" [("lte", stamp)])) d = true).
  { intros h_old d Hc Hd. apply cycle_searches in Hc as [[_ ->]|[Hq _]].
    - apply found_matches in Hd as [Hm _].
      by apply matches_read_range_query in Hm as [_ Hm].
    - rewrite Hold in Hq. by apply range_queries_differ in Hq. }
  assert (Hgt : ∀ h_young d, (CSearch strictly_after, Hits h_young) ∈ calls → d ∈ h_young →
            Source.clause_match
              (Source.read_clause (rounds_up w) (Range "mod_time" [("gt", stamp)])) d = true).
  { intros h_young d Hc Hd. apply cycle_searches in Hc as [[Hq _]|[_ ->]].
    - rewrite Hyoung in Hq. symmetry in Hq. by apply range_queries_differ in Hq.
    - apply found_matches in Hd as [Hm _].
      by apply matches_read_range_query in Hm as [_ Hm]. }
  split; [|split; [|split]].
  - intros i s rep Hi. rewrite Hold, Hyoung. by eapply cycle_search_places.
  - intros Hok. rewrite Hold, Hyoung. by apply cycle_completed_searches.
  - intros h_old h_young d Hc1 Hc2 Hd1 Hd2.
    pose proof (Hlte _ _ Hc1 Hd1) as H1. pose proof (Hgt _ _ Hc2 Hd2) as H2.
    destruct (range_sides (rounds_up w) d stamp) as (b & _ & _ & _ & Hb1 & Hb2).
    apply Hb1 in H1 as (t & Ht & Hle). apply Hb2 in H2 as (t' & Ht' & Hlt).
    rewrite Ht in Ht'. injection Ht' as <-. lia.
  - intros d t Ht [Hlo Hhi].
    destruct (range_sides (rounds_up w) d stamp) as (b & _ & Hb0 & Hb9 & Hb1 & Hb2).
    split; [|split; [|split]].
    + destruct (rounds_up w); cbn [negb].
      * apply not_true_iff_false. intros (t' & Ht' & Hlt)%Hb2.
        rewrite Ht in Ht'. injection Ht' as <-. rewrite (Hb9 eq_refl), Hstamp in Hlt. lia.
      * apply Hb2. exists t. split; [done|]. rewrite (Hb0 eq_refl), Hstamp. lia.
    + destruct (rounds_up w).
      * apply Hb1. exists t. split; [done|]. rewrite (Hb9 eq_refl), Hstamp. lia.
      * apply not_true_iff_false. intros (t' & Ht' & Hle)%Hb1.
        rewrite Ht in Ht'. injection Ht' as <-. rewrite (Hb0 eq_refl), Hstamp in Hle. lia.
    + intros Hup h_old Hc Hd. apply (Hlte _ _ Hc), Hb1 in Hd as (t' & Ht' & Hle).
      rewrite Ht in Ht'. injection Ht' as <-. rewrite (Hb0 Hup), Hstamp in Hle. lia.
    + intros Hup h_young Hc Hd. apply (Hgt _ _ Hc), Hb2 in Hd as (t' & Ht' & Hlt).
      rewrite Ht in Ht'. injection Ht' as <-. rewrite (Hb9 Hup), Hstamp in Hlt. lia.
Qed.

(** With a Source that takes the bound as the first instant of its second,
    the document is deferred. *)
Lemma C10_witness :
  let W := world_of [late] (T + 700000) no_faults in
  (late ∉ found W (range_query (status_only scenario_conf) "lte"
                     (cutoff_of scenario_conf W)))
  ∧ (run (status_only scenario_conf) W).1 = Ok tt.
Proof.
  intros W.
  assert (Hok : (run (status_only scenario_conf) W).1 = Ok tt)
    by (vm_compute; reflexivity).
  split; [|exact Hok].
  destruct (C10_one_cutoff_two_sides (status_only scenario_conf) W) as (_ & _ & _ & H).
  destruct (H late (T - 5 * minute + 400000)%Z) as (_ & _ & Hfirst & _).
  - reflexivity.
  - vm_compute. split; reflexivity.
  - apply Hfirst; [reflexivity|]. vm_compute. left.
Defined.

(** C10 as it is worded fails with a Source that rounds the bound up to the
    last instant of its second. The cutoff is 0.7 s into a second and the
    document was modified 0.4 s into that second, after the boundary; the
    at-or-before search returns it, the strictly-after search does not, and
    the cycle publishes it: it is not deferred. *)
Lemma C10_rounded_up_bound_publishes :
  let W := rounding_up (world_of [late] (T + 700000) no_faults) in
  let self := status_only scenario_conf in
  let cutoff := cutoff_of scenario_conf W in
  late !! "mod_time" = Some (VTime (T - 5 * minute + 400000))
  ∧ (cutoff / 1000000 * 1000000 < (T - 5 * minute + 400000)
     < (cutoff / 1000000 + 1) * 1000000)%Z
  ∧ (run self W).1 = Ok tt
  ∧ calls_since W (run self W).2
    = [(CSearch (range_query self "lte" cutoff), Hits [late]);
       (CSearch (range_query self "gt" cutoff), Hits []);
       (COpen, Done); (CPublish "stac" message_c, Done); (CClose, Done);
       (CUpdate (update_query self [message_c]), Done)]
  ∧ queue (run self W).2 = [("stac", message_c)].
Proof.
  intros W self cutoff. split; [reflexivity|]. split; [vm_compute; split; reflexivity|].
  split; [vm_compute; reflexivity|]. split; vm_compute; reflexivity.
Qed.

(** The query of [__init__] is answered alike by the two kinds of Source:
    the document is a hit of the strictly-after query for the one and of
    the at-or-before query for the other. *)
Lemma init_queries_in_the_second_of_the_cutoff :
  let W := world_of [late] (T + 700000) no_faults in
  let cutoff := cutoff_of scenario_conf W in
  found W (range_query (init scenario_conf) "lte" cutoff) = []
  ∧ found W (range_query (init scenario_conf) "gt" cutoff) = [late]
  ∧ found (rounding_up W) (range_query (init scenario_conf) "lte" cutoff) = [late]
  ∧ found (rounding_up W) (range_query (init scenario_conf) "gt" cutoff) = [].
Proof.
  intros W cutoff. repeat split; vm_compute; reflexivity.
Qed.

(** C7. When the Source returns several hits for one identifier,
    the candidate map of [get_messages] holds that identifier once, and the
    message kept is built from the first of these hits: a hit whose
    identifier is already in the map is skipped (first seen wins). *)
Theorem C7_first_hit_wins (self : Publisher) (operator : string) (cutoff : Z)
    (w : World) (msgs : PyDict.t) :
  (get_messages self operator cutoff w).1 = Ok msgs →
  ∃ hits,
    calls_since w (get_messages self operator cutoff w).2
      = [(CSearch (range_query self operator cutoff), Hits hits)]
    ∧ NoDup (PyDict.keys msgs)
    ∧ (∀ k, k ∈ PyDict.keys msgs ↔ ∃ h, h ∈ hits ∧ h !! ID_KEY (conf self) = Some k)
    ∧ (∀ k, k ∈ PyDict.keys msgs →
         ∃ m pre h post,
           PyDict.get k msgs = Some m
           ∧ hits = pre ++ h :: post
           ∧ (∀ h', h' ∈ pre → h' !! ID_KEY (conf self) ≠ Some k)
           ∧ h !! ID_KEY (conf self) = Some k
           ∧ message_of_hit (ID_KEY (conf self)) h = Some m).
Proof.
  unfold get_messages, bind, lift.
  destruct (Search_execute_inv (range_query self operator cutoff) w) as [[e ->]| ->];
    [done|].
  set (hits := found _ _). cbn [fst snd]. intros Hm.
  destruct (messages_of_hits _ hits _) as [msgs'|] eqn:Hloop; [|done].
  injection Hm as ->. exists hits.
  destruct (messages_of_hits_acc _ _ _ _ Hloop) as (Hnd & _ & Hkeys & Hget).
  split; [by apply calls_since_app|]. split; [apply Hnd, NoDup_nil_2|]. split.
  - intros k. rewrite Hkeys. split; [|by right].
    intros [Hk|?]; [|done]. by apply elem_of_nil in Hk.
  - intros k Hk. destruct (PyDict.get k msgs) as [m|] eqn:Hm.
    + destruct (Hget _ _ Hm) as [?|(_ & pre & h & post & ?)]; [done|].
      exists m, pre, h, post. done.
    + by apply get_None in Hm.
Qed.

Lemma C7_witness :
  ∃ m, PyDict.get (VStr "a")
         [(VStr "a", {| uri := VStr "a"; description_path := VStr "/first" |})] = Some m
       ∧ message_of_hit "id" first_hit = Some m.
Proof.
  set (W := world_of [first_hit; second_hit] T no_faults).
  assert (Hrun : (get_messages (init scenario_conf) "lte" T W).1
                 = Ok [(VStr "a", {| uri := VStr "a"; description_path := VStr "/first" |})]).
  { vm_compute. reflexivity. }
  destruct (C7_first_hit_wins (init scenario_conf) "lte" T W _ Hrun)
    as (hits & Hcalls & _ & _ & Hfirst).
  destruct (Hfirst (VStr "a")) as (m & pre & h & post & Hm & Hhits & Hpre & Hh & Hmsg).
  { left. }
  exists m. split; [exact Hm|].
  vm_compute in Hm. injection Hm as <-. vm_compute. reflexivity.
Defined.

(** The reading of C7 in which the later hit wins fails on two hits for
    identifier "a": the map keeps the message of the first hit, not the one
    of the second. *)
Lemma C7_last_seen_wins_fails :
  let W := world_of [first_hit; second_hit] T no_faults in
  let r := get_messages (init scenario_conf) "lte" T W in
  calls_since W r.2
    = [(CSearch (range_query (init scenario_conf) "lte" T), Hits [first_hit; second_hit])]
  ∧ first_hit !! "id" = Some (VStr "a")
  ∧ second_hit !! "id" = Some (VStr "a")
  ∧ ∃ msgs, r.1 = Ok msgs
      ∧ PyDict.get (VStr "a") msgs = message_of_hit "id" first_hit
      ∧ PyDict.get (VStr "a") msgs ≠ message_of_hit "id" second_hit.
Proof.
  intros W r. split; [vm_compute; reflexivity|].
  split; [vm_compute; reflexivity|]. split; [vm_compute; reflexivity|].
  exists [(VStr "a", {| uri := VStr "a"; description_path := VStr "/first" |})].
  split; [vm_compute; reflexivity|]. split; [vm_compute; reflexivity|].
  vm_compute. discriminate.
Qed.

(** C6. The query of [get_messages] is the base search of [__init__] with
    one range clause on [mod_time]. The number 10000 is a second field of
    the term clause, next to the status: the request asks for no number of
    hits. On the Source of the scenario [get_messages] finds nothing at or
    before the cutoff, though document "a" is new and old enough. *)
Theorem C6_size_sits_in_the_term_clause (c : Conf) (operator : string) (cutoff : Z) :
  range_query (init c) operator cutoff
  = {| s_filters := [Term [("status", VStr "new"); ("size", VInt 10000)];
                     Range "mod_time" [(operator, strftime cutoff)]];
       s_size := None |}
  ∧ (get_messages (init scenario_conf) "lte" (T - 5 * minute) scenario_world).1
    = Ok PyDict.empty
  ∧ Source.matches [Term [("status", VStr "new")];
                    Range "mod_time" [("lte", strftime (T - 5 * minute))]] doc_a = true.
Proof.
  split; [reflexivity|]. split; vm_compute; reflexivity.
Qed.

(** ** The scenario *)

(** C2. On the Source of the scenario (documents "a" and "b", both new,
    modified ten minutes and one minute before T, cutoff age five minutes)
    one cycle of the publisher of [__init__] at time T completes, publishes
    nothing and leaves both documents with status "new". *)
Theorem C2_scenario_publishes_nothing :
  let r := run (init scenario_conf) scenario_world in
  r.1 = Ok tt
  ∧ queue r.2 = []
  ∧ status_of <$> index r.2 = [Some (VStr "new"); Some (VStr "new")]
  ∧ calls_since scenario_world r.2
    = [(CSearch (range_query (init scenario_conf) "lte" (T - 5 * minute)), Hits []);
       (CSearch (range_query (init scenario_conf) "gt" (T - 5 * minute)), Hits []);
       (COpen, Done); (CClose, Done);
       (CUpdate (update_query (init scenario_conf) []), Done)].
Proof.
  intros r. repeat split; vm_compute; reflexivity.
Qed.

(** The same scenario goes as the specification tells it when the base
    search filters on the status alone: one message, for "a", and "a" is
    queued while "b" stays new. *)
Lemma scenario_with_status_only_search :
  let r := run (status_only scenario_conf) scenario_world in
  r.1 = Ok tt
  ∧ queue r.2 = [("stac", message_a)]
  ∧ status_of <$> index r.2 = [Some (VStr "queued"); Some (VStr "new")].
Proof.
  intros r. repeat split; vm_compute; reflexivity.
Qed.

(** And so it goes with the publisher of [__init__] when the documents
    carry a field [size] of value 10000. *)
Lemma scenario_with_sized_documents :
  let r := run (init scenario_conf) (sized_world no_faults) in
  r.1 = Ok tt
  ∧ queue r.2 = [("stac", message_a)]
  ∧ status_of <$> index r.2 = [Some (VStr "queued"); Some (VStr "new")].
Proof.
  intros r. repeat split; vm_compute; reflexivity.
Qed.

(** ** Drift Filter *)

(** C1. [filter_messages] returns exactly the messages of the old
    map whose uri is no key of the young map. Hence, for candidate maps
    over identifier sets A ∪ C and B ∪ C, with A disjoint from B and from
    C, it yields the messages of A, each once. And within one cycle no
    message handed to the Sink carries the identifier of a hit of the
    strictly-after search, whatever the at-or-before search returned. *)
Theorem C1_drift_filter :
  (∀ old young m,
      m ∈ filter_messages old young ↔
      m ∈ PyDict.values old ∧ uri m ∉ PyDict.keys young)
  ∧ (∀ old young (A B C : gset Value),
      candidate old → candidate young →
      A ## B → A ## C →
      list_to_set (PyDict.keys old) = A ∪ C →
      list_to_set (PyDict.keys young) = B ∪ C →
      list_to_set (uris (filter_messages old young)) = A
      ∧ NoDup (uris (filter_messages old young)))
  ∧ (∀ self w h_young h rk m rep,
      let calls := calls_since w (run self w).2 in
      (CSearch (range_query self "gt" (cutoff_of (conf self) w)), Hits h_young) ∈ calls →
      h ∈ h_young →
      (CPublish rk m, rep) ∈ calls →
      h !! ID_KEY (conf self) ≠ Some (uri m)).
Proof.
  split; [|split].
  - apply elem_of_filter_messages.
  - intros old young A B C [Hnd Huri] _ HAB HAC Hold Hyoung. split.
    + apply set_eq. intros x. rewrite elem_of_list_to_set. unfold uris.
      rewrite list_elem_of_fmap. split.
      * intros (m & -> & Hm). apply elem_of_filter_messages in Hm as [Hm Hy].
        assert (uri m ∈ PyDict.keys old) as Hk.
        { rewrite <- (uris_values_candidate old Huri). unfold uris.
          apply list_elem_of_fmap. eauto. }
        assert (uri m ∈ A ∪ C) as HAC' by (rewrite <- Hold; by apply elem_of_list_to_set).
        assert (uri m ∉ B ∪ C) as HBC.
        { rewrite <- Hyoung. by rewrite elem_of_list_to_set. }
        set_solver.
      * intros Hx.
        assert (x ∈ PyDict.keys old) as Hk.
        { apply (elem_of_list_to_set (C := gset Value)). rewrite Hold. set_solver. }
        unfold PyDict.keys in Hk. apply list_elem_of_fmap in Hk as ([k m] & -> & Hkm).
        exists m. split; [symmetry; by apply Huri|].
        apply elem_of_filter_messages. split.
        -- unfold PyDict.values. apply list_elem_of_fmap. by exists (k, m).
        -- rewrite (Huri _ _ Hkm). simpl in Hx.
           intros Hy. apply (elem_of_list_to_set (C := gset Value)) in Hy.
           rewrite Hyoung in Hy. set_solver.
    + unfold filter_messages. apply NoDup_uris_filter.
      by rewrite (uris_values_candidate old Huri).
  - intros self w h_young h rk m rep calls Hs Hh Hp Hid.
    apply cycle_searches in Hs as [[Hq _]|[_ ->]].
    { symmetry in Hq. by apply range_queries_differ in Hq. }
    apply cycle_publishes in Hp as (old & young & _ & Hyoung & Hm).
    apply elem_of_filter_messages in Hm as [_ Hm]. apply Hm.
    destruct (messages_of_hits_acc _ _ _ _ Hyoung) as (_ & _ & Hkeys & _).
    apply Hkeys. right. eauto.
Qed.

Lemma C1_witness :
  let old := [(VStr "a", message_a);
              (VStr "c", {| uri := VStr "c"; description_path := VStr "/c" |})] in
  let young := [(VStr "b", {| uri := VStr "b"; description_path := VStr "/b" |});
                (VStr "c", {| uri := VStr "c"; description_path := VStr "/c" |})] in
  list_to_set (uris (filter_messages old young)) = ({[VStr "a"]} : gset Value).
Proof.
  intros old young.
  assert (Hcand : ∀ d : PyDict.t,
             d = old ∨ d = young → candidate d).
  { intros d [-> | ->]; (split; [repeat constructor; set_solver|]);
      intros k m Hm; repeat (apply elem_of_cons in Hm as [[= -> ->]|Hm]; [done|]);
      by apply elem_of_nil in Hm. }
  refine (proj1 (proj1 (proj2 C1_drift_filter) old young
                   {[VStr "a"]} {[VStr "b"]} {[VStr "c"]}
                   (Hcand old (or_introl eq_refl)) (Hcand young (or_intror eq_refl))
                   _ _ _ _)).
  - set_solver.
  - set_solver.
  - simpl. set_solver.
  - simpl. set_solver.
Defined.

(** C1 as it is worded, for any set C, fails when C meets A: with
    A = C = {a} and B empty, both maps are the map over {a}, and the filter
    yields nothing, not A. *)
Lemma C1_any_overlap_fails :
  let old := [(VStr "a", message_a)] in
  let young := [(VStr "a", message_a)] in
  let A : gset Value := {[VStr "a"]} in
  let B : gset Value := ∅ in
  let C : gset Value := {[VStr "a"]} in
  A ## B
  ∧ list_to_set (PyDict.keys old) = A ∪ C
  ∧ list_to_set (PyDict.keys young) = B ∪ C
  ∧ filter_messages old young = []
  ∧ list_to_set (uris (filter_messages old young)) ≠ A.
Proof.
  intros old young A B C.
  split; [set_solver|]. split; [simpl; set_solver|]. split; [simpl; set_solver|].
  split; [reflexivity|].
  change (filter_messages old young) with (@nil Message). simpl.
  intros H. assert (VStr "a" ∈ (∅ : gset Value)) as Hin by (rewrite H; set_solver).
  set_solver.
Qed.

(** * Further properties of the code *)

(** ** The loop of [get_messages] *)
Section Loop.

Implicit Types (acc msgs : PyDict.t) (hits : list Doc).

Lemma get_of_elem k m (d : PyDict.t) :
  NoDup (PyDict.keys d) → (k, m) ∈ d → PyDict.get k d = Some m.
Proof.
  induction d as [|[k' m'] d IH]; simpl; intros Hnd Hin.
  - by apply elem_of_nil in Hin.
  - apply NoDup_cons in Hnd as [Hk' Hnd].
    apply elem_of_cons in Hin as [[= -> ->]|Hin].
    + by rewrite decide_True.
    + destruct (decide (k' = k)) as [->|]; [|by apply IH].
      exfalso. apply Hk'. apply list_elem_of_fmap. by exists (k, m).
Qed.

(** When the loop gets through, and which hit stops it otherwise. *)
Lemma messages_of_hits_accepts id_key hits : ∀ acc,
  (∃ msgs, messages_of_hits id_key hits acc = Ok msgs) ↔
  (∀ h, h ∈ hits → is_Some (h !! id_key))
  ∧ (∀ pre h post k,
        hits = pre ++ h :: post → h !! id_key = Some k →
        k ∉ PyDict.keys acc → (∀ h', h' ∈ pre → h' !! id_key ≠ Some k) →
        is_Some (h !! "description_path")).
Proof.
  induction hits as [|hit rest IH]; intros acc; simpl.
  - split; [|eauto]. intros _. split.
    + intros h Hh. by apply elem_of_nil in Hh.
    + intros [|] ? ? ? [=].
  - destruct (hit !! id_key) as [sur_id|] eqn:Hid.
    2:{ split; [by intros [? [=]]|]. intros [H _].
        destruct (H hit) as [? Hs]; [left|]. congruence. }
    destruct (PyDict.mem sur_id acc) eqn:Hmem.
    + apply mem_true in Hmem. rewrite IH. split; intros [Hall Hpath]; split.
      * intros h [->|Hh]%elem_of_cons; [by rewrite Hid | by apply Hall].
      * intros [|h0 pre] h post k [= <- Hrest] Hk Hacc Hpre.
        { destruct Hacc. congruence. }
        subst rest. eapply (Hpath pre h post k); [done..|].
        intros h' Hh'. apply Hpre. by right.
      * intros h Hh. apply Hall. by right.
      * intros pre h post k -> Hk Hacc Hpre.
        apply (Hpath (hit :: pre) h post k); [done..|].
        intros h' [->|Hh']%elem_of_cons; [|by apply Hpre].
        rewrite Hid. intros [= ->]. done.
    + apply mem_false in Hmem.
      destruct (hit !! "description_path") as [path|] eqn:Hp.
      2:{ split; [by intros [? [=]]|]. intros [_ H].
          destruct (H [] hit rest sur_id) as [? Hs]; [done..| |congruence].
          intros h' Hh'. by apply elem_of_nil in Hh'. }
      rewrite (set_fresh _ _ _ Hmem), IH.
      split; intros [Hall Hpath]; split.
      * intros h [->|Hh]%elem_of_cons; [by rewrite Hid | by apply Hall].
      * intros [|h0 pre] h post k [= <- Hrest] Hk Hacc Hpre.
        { by rewrite Hp. }
        subst rest. apply (Hpath pre h post k); [done..| |].
        -- rewrite keys_snoc, elem_of_app, list_elem_of_singleton.
           intros [?| ->]; [done|]. apply (Hpre hit); [left | done].
        -- intros h' Hh'. apply Hpre. by right.
      * intros h Hh. apply Hall. by right.
      * intros pre h post k -> Hk Hacc Hpre.
        rewrite keys_snoc, elem_of_app, list_elem_of_singleton in Hacc.
        apply (Hpath (hit :: pre) h post k); [done..| |].
        -- intros ?. apply Hacc. by left.
        -- intros h' [->|Hh']%elem_of_cons; [|by apply Hpre].
           rewrite Hid. intros [= ->]. apply Hacc. by right.
Qed.

(** The only errors of the loop are the two key errors. *)
Lemma messages_of_hits_raises id_key hits : ∀ acc e,
  messages_of_hits id_key hits acc = Raise e →
  e = KeyError id_key ∨ e = KeyError "description_path".
Proof.
  induction hits as [|hit rest IH]; intros acc e; simpl; [done|].
  destruct (hit !! id_key) as [sur_id|]; [|intros [= <-]; by left].
  destruct (PyDict.mem sur_id acc); [apply IH|].
  destruct (hit !! "description_path"); [apply IH|intros [= <-]; by right].
Qed.

(** The map grows at its end, in the order of the hits. *)
Lemma messages_of_hits_order id_key hits : ∀ acc msgs,
  messages_of_hits id_key hits acc = Ok msgs →
  ∃ new, msgs = acc ++ new
         ∧ (Some <$> PyDict.keys new) `sublist_of` hit_ids id_key hits.
Proof.
  induction hits as [|hit rest IH]; intros acc msgs; simpl.
  - intros [= <-]. exists []. by rewrite app_nil_r.
  - destruct (hit !! id_key) as [sur_id|] eqn:Hid; [|done].
    destruct (PyDict.mem sur_id acc) eqn:Hmem.
    + intros (new & -> & Hsub)%IH. exists new. split; [done|].
      by apply sublist_cons.
    + apply mem_false in Hmem.
      destruct (hit !! "description_path") as [path|]; [|done].
      rewrite (set_fresh _ _ _ Hmem). intros (new & -> & Hsub)%IH.
      eexists (_ :: new). split; [by rewrite <- app_assoc|].
      simpl. by apply sublist_skip.
Qed.

(** Every message of the map was built from a hit. *)
Lemma messages_of_hits_values id_key hits msgs m :
  messages_of_hits id_key hits PyDict.empty = Ok msgs →
  m ∈ PyDict.values msgs →
  ∃ h, h ∈ hits ∧ message_of_hit id_key h = Some m.
Proof.
  intros Hloop Hm.
  destruct (messages_of_hits_acc _ _ _ _ Hloop) as (Hnd & _ & _ & Hget).
  unfold PyDict.values in Hm. apply list_elem_of_fmap in Hm as ([k m'] & -> & Hkm).
  apply get_of_elem in Hkm; [|apply Hnd, NoDup_nil_2].
  destruct (Hget _ _ Hkm) as [?|(_ & pre & h & post & -> & _ & _ & Hmsg)]; [done|].
  exists h. split; [|done]. apply elem_of_app. right. left.
Qed.

End Loop.

(** X1. The loop of [get_messages] gets through a list of hits exactly
    when every hit has the identifier field and every hit that is the
    first for its identifier has [description_path]; a later hit for an
    identifier already seen may lack [description_path]. When the loop
    raises, it raises [KeyError] for one of these two keys. *)
Theorem X1_hits_the_loop_accepts (id_key : string) (hits : list Doc) :
  ((∃ msgs, messages_of_hits id_key hits PyDict.empty = Ok msgs) ↔
   (∀ h, h ∈ hits → is_Some (h !! id_key))
   ∧ (∀ pre h post,
         hits = pre ++ h :: post →
         (∀ h', h' ∈ pre → h' !! id_key ≠ h !! id_key) →
         is_Some (h !! "description_path")))
  ∧ (∀ e, messages_of_hits id_key hits PyDict.empty = Raise e →
          e = KeyError id_key ∨ e = KeyError "description_path").
Proof.
  split; [|intros e; apply messages_of_hits_raises].
  rewrite messages_of_hits_accepts. split; intros [Hall Hpath]; (split; [done|]).
  - intros pre h post -> Hpre.
    destruct (Hall h) as [k Hk]; [apply elem_of_app; right; left|].
    apply (Hpath pre h post k); [done..| |].
    + intros Hin. by apply elem_of_nil in Hin.
    + intros h' Hh'. rewrite <- Hk. by apply Hpre.
  - intros pre h post k -> Hk _ Hpre. apply (Hpath pre h post); [done|].
    intros h' Hh'. rewrite Hk. by apply Hpre.
Qed.

(** A first hit for "a" followed by a hit for "a" without payload
    reference gets through; a hit without identifier raises. *)
Lemma X1_witness :
  messages_of_hits "id" [first_hit; bare_hit] PyDict.empty
  = Ok [(VStr "a", {| uri := VStr "a"; description_path := VStr "/first" |})]
  ∧ (KeyError "id" = KeyError "id" ∨ KeyError "id" = KeyError "description_path").
Proof.
  split; [vm_compute; reflexivity|].
  apply (proj2 (X1_hits_the_loop_accepts "id" [first_hit; anonymous_hit])).
  vm_compute. reflexivity.
Defined.

(** X2. The candidate map lists the identifiers in the order in which the
    hits bring them: its keys are a subsequence of the hits' identifiers,
    so the map never has more entries than there are hits. *)
Theorem X2_candidates_follow_the_hits (id_key : string) (hits : list Doc)
    (msgs : PyDict.t) :
  messages_of_hits id_key hits PyDict.empty = Ok msgs →
  (Some <$> PyDict.keys msgs) `sublist_of` hit_ids id_key hits
  ∧ (length msgs ≤ length hits)%nat.
Proof.
  intros (new & -> & Hsub)%messages_of_hits_order. simpl. split; [done|].
  apply sublist_length in Hsub. unfold hit_ids, PyDict.keys in Hsub.
  by rewrite !length_fmap in Hsub.
Qed.

Lemma X2_witness :
  (Some <$> [VStr "a"]) `sublist_of` hit_ids "id" [first_hit; second_hit].
Proof.
  refine (proj1 (X2_candidates_follow_the_hits "id" [first_hit; second_hit]
                   [(VStr "a", {| uri := VStr "a"; description_path := VStr "/first" |})]
                   _)).
  vm_compute. reflexivity.
Defined.

(** ** [filter_messages] *)

(** X3. [filter_messages] keeps the messages it returns in the order of
    the old map, none twice: the result is a subsequence of the old map's
    values. With an empty young map it returns them all, and from an empty
    old map it returns nothing. *)
Theorem X3_filter_keeps_the_order :
  (∀ old young, filter_messages old young `sublist_of` PyDict.values old)
  ∧ (∀ old, filter_messages old PyDict.empty = PyDict.values old)
  ∧ (∀ young, filter_messages PyDict.empty young = []).
Proof.
  split; [|split].
  - intros old young. unfold filter_messages.
    induction (PyDict.values old) as [|m l IH]; simpl; [done|].
    destruct (negb _); [by apply sublist_skip | by apply sublist_cons].
  - intros old. unfold filter_messages.
    induction (PyDict.values old) as [|m l IH]; [done|]. cbn [List.filter].
    change (PyDict.mem (uri m) PyDict.empty) with false. cbn [negb].
    by rewrite IH.
  - done.
Qed.

(** X4. A larger young map never adds to the result: when every key of
    [young] is a key of [young'], what the filter returns against [young']
    is a subsequence of what it returns against [young]. The result is
    empty exactly when the uri of every old message is a key of the young
    map. *)
Theorem X4_filter_shrinks_as_young_grows (old young young' : PyDict.t) :
  (∀ k, k ∈ PyDict.keys young → k ∈ PyDict.keys young') →
  filter_messages old young' `sublist_of` filter_messages old young
  ∧ (filter_messages old young = [] ↔
     ∀ m, m ∈ PyDict.values old → uri m ∈ PyDict.keys young).
Proof.
  intros Hsub. unfold filter_messages. split.
  - induction (PyDict.values old) as [|m l IH]; simpl; [done|].
    destruct (PyDict.mem (uri m) young') eqn:H'; simpl.
    + destruct (negb _); [by apply sublist_cons | done].
    + assert (PyDict.mem (uri m) young = false) as ->.
      { apply mem_false. apply mem_false in H'. intros ?. by apply H', Hsub. }
      simpl. by apply sublist_skip.
  - induction (PyDict.values old) as [|m l IH]; simpl.
    + split; [|done]. intros _ m Hm. by apply elem_of_nil in Hm.
    + destruct (PyDict.mem (uri m) young) eqn:Hmem; simpl.
      * rewrite IH. apply mem_true in Hmem. split.
        -- intros H m' [->|Hm']%elem_of_cons; [done | by apply H].
        -- intros H m' Hm'. apply H. by right.
      * split; [done|]. intros H. apply mem_false in Hmem.
        destruct Hmem. apply H. left.
Qed.

Lemma X4_witness :
  filter_messages [(VStr "a", message_a)] [(VStr "a", message_a)]
    `sublist_of` filter_messages [(VStr "a", message_a)] PyDict.empty.
Proof.
  apply (X4_filter_shrinks_as_young_grows
           [(VStr "a", message_a)] PyDict.empty [(VStr "a", message_a)]).
  intros k Hk. by apply elem_of_nil in Hk.
Defined.

(** ** [get_messages] *)

(** X5. [get_messages] only reads: whatever it returns or raises, it has
    made one call, the search with the range clause for its operator and
    cutoff, and has left the documents of the Source and the content of the
    Sink as they were. *)
Theorem X5_get_messages_only_reads (self : Publisher) (operator : string)
    (cutoff : Z) (w : World) :
  let w' := (get_messages self operator cutoff w).2 in
  index w' = index w
  ∧ queue w' = queue w
  ∧ ∃ reply,
      calls_since w w'
      = [(CSearch (Search_filter (search self)
                     (Range "mod_time" [(operator, strftime cutoff)])), reply)].
Proof.
  unfold get_messages, bind, lift.
  fold (range_query self operator cutoff).
  destruct (Search_execute_inv (range_query self operator cutoff) w) as [[e ->]| ->].
  - world_simpl. repeat split; try done. eexists. by apply calls_since_app.
  - set (hits := found _ _).
    destruct (messages_of_hits _ hits _); world_simpl;
      (repeat split; try done); eexists; by apply calls_since_app.
Qed.

(** ** [publish_messages] *)

Lemma sent_since_app (w w' : World) (sent : list (string * Message)) :
  queue w' = queue w ++ sent → sent_since w w' = sent.
Proof. intros H. unfold sent_since. rewrite H. apply drop_app_length. Qed.

(** X6. [publish_messages] hands the Sink a prefix of the list, in order
    and under the configured routing key: the whole list when it returns,
    and, when a publish raises, the messages before the one that raised,
    which stay in the Sink. It adds nothing else to the Sink and leaves the
    Source as it was. *)
Theorem X6_publish_hands_over_a_prefix (self : Publisher) (messages : list Message)
    (w : World) :
  let r := (publish_messages self messages w).1 in
  let w' := (publish_messages self messages w).2 in
  index w' = index w
  ∧ queue w' = queue w ++ sent_since w w'
  ∧ ∃ n,
      sent_since w w' = pair (ROUTING_KEY (conf self)) <$> take n messages
      ∧ (r = Ok tt → take n messages = messages)
      ∧ (∀ e, r = Raise e →
              calls_since w w' = [(COpen, Failed e)]
              ∨ ∃ m, messages !! n = Some m
                     ∧ (CPublish (ROUTING_KEY (conf self)) m, Failed e)
                         ∈ calls_since w w').
Proof.
  pose proof (publish_messages_inv self messages w) as H. simpl in H.
  destruct (publish_messages self messages w) as [r w']. simpl in *.
  destruct H as (Hi & _ & _ & _ & _ & H). split; [done|].
  destruct H as [(e & -> & Hl & Hq)|[(n & m & e & -> & Hn & Hl & Hq)|(-> & Hl & Hq)]].
  - rewrite (sent_since_app w w' []) by (by rewrite app_nil_r).
    split; [by rewrite app_nil_r|]. exists 0%nat. split; [done|]. split; [done|].
    intros e' [= <-]. left. by apply calls_since_app.
  - rewrite (sent_since_app _ _ _ Hq). split; [done|]. exists n.
    split; [done|]. split; [done|]. intros e' [= <-]. right. exists m.
    split; [done|]. rewrite (calls_since_app _ _ _ Hl).
    right. apply elem_of_app. right. left.
  - rewrite (sent_since_app _ _ _ Hq). split; [done|]. exists (length messages).
    rewrite firstn_all. split; [done|]. split; [done|]. intros e' [=].
Qed.

(** X7. The Sink is opened once, first, and released once, last: the calls
    of [publish_messages] are the open that raised, or else the open, the
    publishes of messages of the list, and the close, also when a publish
    raised. With an empty list the Sink is still opened and closed. *)
Theorem X7_sink_is_opened_and_released (self : Publisher) (messages : list Message)
    (w : World) :
  let r := (publish_messages self messages w).1 in
  let calls := calls_since w (publish_messages self messages w).2 in
  (∃ e, calls = [(COpen, Failed e)] ∧ r = Raise e)
  ∨ (∃ mid,
       calls = (COpen, Done) :: mid ++ [(CClose, Done)]
       ∧ (∀ x, x ∈ mid →
               ∃ m reply, x = (CPublish (ROUTING_KEY (conf self)) m, reply)
                          ∧ m ∈ messages)
       ∧ (messages = [] → mid = [] ∧ r = Ok tt)).
Proof.
  pose proof (publish_messages_inv self messages w) as H. simpl in H.
  destruct (publish_messages self messages w) as [r w']. simpl in *.
  destruct H as (_ & _ & _ & _ & _ & H).
  destruct H as [(e & -> & Hl & _)|[(n & m & e & -> & Hn & Hl & _)|(-> & Hl & _)]];
    apply calls_since_app in Hl; rewrite Hl.
  - left. eauto.
  - right.
    exists ((published (ROUTING_KEY (conf self)) <$> take n messages)
            ++ [(CPublish (ROUTING_KEY (conf self)) m, Failed e)]).
    split; [simpl; by rewrite <- app_assoc|]. split.
    + intros x [Hx|Hx]%elem_of_app.
      * apply list_elem_of_fmap in Hx as (m' & -> & Hm').
        exists m', Done. split; [done|]. by apply subseteq_take in Hm'.
      * apply list_elem_of_singleton in Hx as ->.
        exists m, (Failed e). split; [done|]. by eapply list_elem_of_lookup_2.
    + intros ->. done.
  - right. exists (published (ROUTING_KEY (conf self)) <$> messages).
    split; [done|]. split.
    + intros x Hx. apply list_elem_of_fmap in Hx as (m' & -> & Hm').
      exists m', Done. done.
    + intros ->. done.
Qed.

(** ** [update_subs] *)

(** X8. The bulk update writes the status and nothing else. Every
    document stays at its place in the Source with all its other fields as
    they were, and with its status either as it was or "queued"; the Sink
    is not touched. *)
Theorem X8_update_writes_the_status_only (c : Conf) (ms : list Message) (w : World)
    (i : nat) (d : Doc) :
  index w !! i = Some d →
  let w' := (update_subs (init c) ms w).2 in
  queue w' = queue w
  ∧ ∃ d', index w' !! i = Some d'
          ∧ (∀ field, field ≠ "status" → d' !! field = d !! field)
          ∧ (status_of d' = status_of d ∨ status_of d' = Some (VStr "queued")).
Proof.
  intros Hd.
  destruct (update_subs_inv c ms w) as [[e ->]|[_ ->]]; world_simpl.
  - split; [done|]. exists d. split; [done|]. split; [done | by left].
  - split; [done|]. rewrite update_index_lookup, Hd.
    destruct (Source.matches (u_query (update_query (init c) ms)) d) eqn:Hm.
    + exists (mark_queued d).
      split; [apply fmap_Some; exists d; by rewrite Hm|]. split.
      * intros field Hf. unfold mark_queued. by rewrite lookup_insert_ne.
      * right. unfold status_of, mark_queued. apply lookup_insert_eq.
    + exists d.
      split; [apply fmap_Some; exists d; by rewrite Hm|]. split; [done | by left].
Qed.

Lemma X8_witness :
  ∃ d', index (update_subs (init scenario_conf) [message_a] scenario_world).2 !! 0%nat
        = Some d'
        ∧ d' !! "description_path" = doc_a !! "description_path".
Proof.
  destruct (X8_update_writes_the_status_only scenario_conf [message_a] scenario_world
              0 doc_a eq_refl) as (_ & d' & Hd' & Hfields & _).
  exists d'. split; [exact Hd'|]. apply Hfields. discriminate.
Defined.

Lemma update_index_no_ids (c : Conf) (idx : list Doc) :
  Source.update_index (update_query (init c) []) idx = idx.
Proof.
  apply list_eq. intros i. rewrite update_index_lookup.
  destruct (idx !! i) as [d|] eqn:Hd; [|done].
  assert (Hm : Source.matches (u_query (update_query (init c) [])) d = false).
  { apply not_true_iff_false. intros (v & _ & Hin)%matches_update_query.
    by apply elem_of_nil in Hin. }
  transitivity (Some (if Source.matches (u_query (update_query (init c) [])) d
                      then mark_queued d else d)); [done|].
  by rewrite Hm.
Qed.

(** X9. With no message [update_subs] still sends its request, keyed on
    the empty list of identifiers, and no document of the Source changes. *)
Theorem X9_update_for_no_message (c : Conf) (w : World) :
  let w' := (update_subs (init c) [] w).2 in
  index w' = index w
  ∧ ∃ reply,
      calls_since w w'
      = [(CUpdate {| u_query := [Terms (update_key c) []];
                     u_script := Some (Assign "status" (VStr "queued")) |}, reply)].
Proof.
  destruct (update_subs_inv c [] w) as [[e ->]|[_ ->]]; world_simpl.
  - split; [done|]. eexists. by apply calls_since_app.
  - split; [apply update_index_no_ids | eexists; by apply calls_since_app].
Qed.

(** ** [run] *)
Section Run.

Implicit Types (self : Publisher) (w : World).

Lemma strftime_floor (t : Z) :
  (stamp_instant (strftime t) ≤ t < stamp_instant (strftime t) + 1000000)%Z.
Proof.
  unfold strftime, stamp_instant, micros_per_second.
  pose proof (Z.div_mod t 1000000). pose proof (Z.mod_pos_bound t 1000000). lia.
Qed.

Lemma cycle_publish_key self w rk m rep :
  (CPublish rk m, rep) ∈ calls_since w (run self w).2 → rk = ROUTING_KEY (conf self).
Proof.
  intros Hin. pose proof (run_Cycle self w) as HC.
  destruct (run self w) as [r w']. simpl in *.
  inversion HC as [ e ? (Hl & _) | e ? Ho (Hl & _)
                  | old e ? Ho (Hl & _) | old e ? Ho Hy (Hl & _)
                  | old young e ? Ho Hy (Hl & _)
                  | old young n m' e ? Ho Hy Hn (Hl & _)
                  | old young e ? Ho Hy (Hl & _)
                  | old young ? Ho Hy (Hl & _) ]; subst;
    apply calls_since_app in Hl; rewrite Hl in Hin; clear Hl HC;
    split_log Hin; done.
Qed.

Lemma NoDup_uris_take (n : nat) (ms : list Message) :
  NoDup (uris ms) → NoDup (uris (take n ms)).
Proof.
  unfold uris. intros Hnd. apply (sublist_NoDup _ _ Hnd).
  apply fmap_sublist, sublist_take.
Qed.

Lemma NoDup_uris_filter_messages id_key hits old young :
  messages_of_hits id_key hits PyDict.empty = Ok old →
  NoDup (uris (filter_messages old young)).
Proof.
  intros [Hnd Huri]%messages_of_hits_candidate.
  unfold filter_messages. apply NoDup_uris_filter.
  by rewrite (uris_values_candidate old Huri).
Qed.

(** What a cycle adds to the Sink. *)
Lemma cycle_sent self w :
  ∃ sent, queue (run self w).2 = queue w ++ (pair (ROUTING_KEY (conf self)) <$> sent)
          ∧ NoDup (uris sent).
Proof.
  pose proof (run_Cycle self w) as HC.
  destruct (run self w) as [r w']. simpl in *.
  inversion HC as [ e ? (_ & Hq & _) | e ? Ho (_ & Hq & _)
                  | old e ? Ho (_ & Hq & _) | old e ? Ho Hy (_ & Hq & _)
                  | old young e ? Ho Hy (_ & Hq & _)
                  | old young n m' e ? Ho Hy Hn (_ & Hq & _)
                  | old young e ? Ho Hy (_ & Hq & _)
                  | old young ? Ho Hy (_ & Hq & _) ]; subst.
  1-5: exists []; split; [by rewrite Hq, app_nil_r | apply NoDup_nil_2].
  - eexists. split; [exact Hq|].
    eapply NoDup_uris_take, NoDup_uris_filter_messages, Ho.
  - eexists. split; [exact Hq|]. eapply NoDup_uris_filter_messages, Ho.
  - eexists. split; [exact Hq|]. eapply NoDup_uris_filter_messages, Ho.
Qed.

(** Where a message handed to the Sink comes from: a document that the
    at-or-before search returned, so one modified at or before an instant
    of the second the bound names. *)
Lemma cycle_publish_origin self w rk m rep :
  (CPublish rk m, rep) ∈ calls_since w (run self w).2 →
  ∃ d t,
    d ∈ index w
    ∧ message_of_hit (ID_KEY (conf self)) d = Some m
    ∧ Source.matches (s_filters (Source.read (rounds_up w) (search self))) d = true
    ∧ d !! "mod_time" = Some (VTime t)
    ∧ (t < stamp_instant (strftime (cutoff_of (conf self) w)) + 1000000)%Z
    ∧ (rounds_up w = false →
       (t ≤ stamp_instant (strftime (cutoff_of (conf self) w)))%Z).
Proof.
  intros Hin.
  apply cycle_publishes in Hin as (old & young & Hold & _ & Hm).
  apply elem_of_filter_messages in Hm as [Hm _].
  destruct (messages_of_hits_values _ _ _ _ Hold Hm) as (d & Hd & Hmsg).
  apply found_matches in Hd as [Hmatch Hd].
  apply matches_read_range_query in Hmatch as [Hbase Hrange].
  destruct (range_sides (rounds_up w) d (strftime (cutoff_of (conf self) w)))
    as (b & Hb & Hb0 & _ & Hb1 & _).
  apply Hb1 in Hrange as (t & Ht & Hle).
  exists d, t. repeat split; try done; [lia|].
  intros Hup. by rewrite <- (Hb0 Hup).
Qed.

(** A document that is new after the bulk update was not selected by it. *)
Lemma new_after_update self ms w d :
  update self = UpdateByQuery_new →
  d ∈ updated w (update_query self ms) →
  status_of d = Some (VStr "new") →
  d ∈ index w ∧ ∀ v, d !! update_key (conf self) = Some v → v ∉ uris ms.
Proof.
  intros Hu Hd Hnew. rewrite (updated_update_query _ _ _ Hu) in Hd.
  apply list_elem_of_lookup in Hd as [i Hd].
  rewrite update_index_lookup in Hd. apply fmap_Some in Hd as (d0 & Hd0 & ->).
  destruct (Source.matches (u_query (update_query (init (conf self)) ms)) d0) eqn:Hmatch.
  - unfold status_of, mark_queued in Hnew. rewrite lookup_insert_eq in Hnew.
    discriminate.
  - split; [by eapply list_elem_of_lookup_2|]. intros v Hv Hin.
    apply not_true_iff_false in Hmatch. apply Hmatch.
    apply matches_update_query. eauto.
Qed.

(** The update keyed on no identifier selects no document, whatever the
    base update of the publisher. *)
Lemma updated_no_ids self w : updated w (update_query self []) = index w.
Proof.
  unfold updated, Source.update_index.
  rewrite <- (list_fmap_id (index w)) at 2.
  apply list_fmap_ext. intros _ d _.
  assert (Hm : Source.matches
                 (u_query (Source.read_update (rounds_up w) (update_query self []))) d
               = false); [|by rewrite Hm].
  unfold update_query, UpdateByQuery_script, UpdateByQuery_query, Source.read_update,
    Source.matches.
  cbn [u_query]. rewrite fmap_app, forallb_app. cbn [fmap list_fmap forallb].
  apply andb_false_iff. right. cbn [Source.read_clause Source.clause_match].
  destruct (d !! _); [|done]. rewrite andb_true_r.
  apply bool_decide_eq_false. apply not_elem_of_nil.
Qed.

(** A base search on the status alone returns new documents only. *)
Lemma status_only_selects_new (c : Conf) : selects_new (status_only c).
Proof.
  intros up d. unfold status_only, Source.matches. cbn. intros Hm.
  apply andb_true_iff in Hm as [Hm _]. apply andb_true_iff in Hm as [Hm _].
  by apply bool_decide_eq_true in Hm.
Qed.

End Run.

(** X10. Every message a cycle hands to the Sink goes under the configured
    routing key and was built from a document of the Source that passes
    the base search and was modified less than a second after the cutoff,
    the time of the cycle less CUTOFF minutes. With a Source that takes the
    bound as the first instant of its second, the document was modified at
    or before the cutoff. *)
Theorem X10_published_messages_are_old_enough (self : Publisher) (w : World)
    (rk : string) (m : Message) (reply : Reply) :
  (CPublish rk m, reply) ∈ calls_since w (run self w).2 →
  rk = ROUTING_KEY (conf self)
  ∧ ∃ d t,
      d ∈ index w
      ∧ message_of_hit (ID_KEY (conf self)) d = Some m
      ∧ Source.matches (s_filters (Source.read (rounds_up w) (search self))) d = true
      ∧ d !! "mod_time" = Some (VTime t)
      ∧ (t < clock w - CUTOFF (conf self) * 60 * 1000000 + 1000000)%Z
      ∧ (rounds_up w = false → (t ≤ clock w - CUTOFF (conf self) * 60 * 1000000)%Z).
Proof.
  intros Hin. split; [by eapply cycle_publish_key|].
  apply cycle_publish_origin in Hin as (d & t & Hd & Hmsg & Hbase & Ht & Hlt & Hle).
  exists d, t. repeat split; try done.
  - pose proof (strftime_floor (cutoff_of (conf self) w)) as [Hfloor _].
    unfold cutoff_of, timedelta_minutes, micros_per_second in *. lia.
  - intros Hup. specialize (Hle Hup).
    pose proof (strftime_floor (cutoff_of (conf self) w)) as [Hfloor _].
    unfold cutoff_of, timedelta_minutes, micros_per_second in *. lia.
Qed.

Lemma X10_witness :
  ∃ d t, d ∈ index scenario_world
         ∧ message_of_hit "id" d = Some message_a
         ∧ d !! "mod_time" = Some (VTime t)
         ∧ (t < T - 5 * 60 * 1000000 + 1000000)%Z.
Proof.
  assert (Hin : (CPublish "stac" message_a, Done)
                  ∈ calls_since scenario_world
                      (run (status_only scenario_conf) scenario_world).2).
  { vm_compute. do 3 right. left. }
  destruct (X10_published_messages_are_old_enough _ _ _ _ _ Hin)
    as (_ & d & t & Hd & Hm & _ & Ht & Hlt & _).
  exists d, t. repeat split; assumption.
Defined.

(** X11. The Sink only grows in a cycle, and what a cycle adds carries no
    identifier twice: the uris of the messages added are pairwise
    distinct, and each message goes under the configured routing key. *)
Theorem X11_no_identifier_twice_in_a_cycle (self : Publisher) (w : World) :
  let sent := sent_since w (run self w).2 in
  queue (run self w).2 = queue w ++ sent
  ∧ NoDup ((fun x : string * Message => uri x.2) <$> sent)
  ∧ ∀ x, x ∈ sent → x.1 = ROUTING_KEY (conf self).
Proof.
  destruct (cycle_sent self w) as (sent & Hq & Hnd). simpl.
  rewrite (sent_since_app _ _ _ Hq). split; [done|]. split.
  - rewrite <- list_fmap_compose. exact Hnd.
  - intros x (m & -> & _)%list_elem_of_fmap. done.
Qed.

(** X12. What a completed cycle has published is not selected again. Take
    a publisher whose base search returns new documents only and whose base
    update is the empty one of [__init__]. In the Source as its cycle
    leaves it, no search of [get_messages] returns a document whose
    [properties.<ID_KEY>] is the uri of a message the cycle has handed to
    the Sink, for such documents have status "queued" now. *)
Theorem X12_published_is_not_selected_again (self : Publisher) (w : World)
    (operator : string) (cutoff : Z) (n : nat) (up : bool) (h : Doc)
    (x : string * Message) (v : Value) :
  selects_new self →
  update self = UpdateByQuery_new →
  (run self w).1 = Ok tt →
  x ∈ sent_since w (run self w).2 →
  h ∈ Source.search_hits n (Source.read up (range_query self operator cutoff))
        (index (run self w).2) →
  h !! update_key (conf self) = Some v →
  v ≠ uri x.2.
Proof.
  intros Hnew Hu Hok Hx Hh Hv. pose proof (run_Cycle self w) as HC.
  destruct (run self w) as [r w']. simpl in *. subst r.
  inversion HC as [ | | | | | | | old young ? Ho Hy (_ & Hq & Hi) ]; subst.
  rewrite (sent_since_app _ _ _ Hq) in Hx.
  apply list_elem_of_fmap in Hx as (m & -> & Hm). simpl.
  apply search_hits_matches in Hh as [Hmatch Hh].
  apply matches_read_range_query in Hmatch as [Hbase _].
  apply Hnew in Hbase. rewrite Hi in Hh.
  destruct (new_after_update _ _ _ _ Hu Hh Hbase) as [_ Hout].
  intros ->. apply (Hout _ Hv). unfold uris. apply list_elem_of_fmap. eauto.
Qed.

Lemma X12_witness :
  VStr "b" ≠ uri message_a.
Proof.
  apply (X12_published_is_not_selected_again (status_only scenario_conf) scenario_world
           "gt" (T - 5 * minute) 10 false doc_b ("stac", message_a) (VStr "b")).
  - apply status_only_selects_new.
  - reflexivity.
  - vm_compute. reflexivity.
  - vm_compute. left.
  - vm_compute. left.
  - vm_compute. reflexivity.
Defined.

(** X13. When a cycle has reached the Source and raises though no call to
    the Source or the Sink has failed, a hit lacked the identifier field or
    [description_path]: the error is the [KeyError] for that key, the calls
    made are searches that were answered, the Sink was not opened and
    nothing was published or marked. *)
Theorem X13_a_bad_hit_stops_the_cycle_early (self : Publisher) (w : World) (e : Exn) :
  (run self w).1 = Raise e →
  calls_since w (run self w).2 ≠ [] →
  Forall (fun x => ¬ is_failed x) (calls_since w (run self w).2) →
  (e = KeyError (ID_KEY (conf self)) ∨ e = KeyError "description_path")
  ∧ queue (run self w).2 = queue w
  ∧ index (run self w).2 = index w
  ∧ ∀ x, x ∈ calls_since w (run self w).2 → ∃ s hits, x = (CSearch s, Hits hits).
Proof.
  intros Hr _ Hnofail. pose proof (run_Cycle self w) as HC.
  destruct (run self w) as [r w']. simpl in *. subst r.
  inversion HC as [ e0 ? (Hl & Hq & Hi) | e0 ? Ho (Hl & Hq & Hi)
                  | old e0 ? Ho (Hl & Hq & Hi) | old e0 ? Ho Hy (Hl & Hq & Hi)
                  | old young e0 ? Ho Hy (Hl & Hq & Hi)
                  | old young n m e0 ? Ho Hy Hn (Hl & Hq & Hi)
                  | old young e0 ? Ho Hy (Hl & Hq & Hi) | ]; subst;
    apply calls_since_app in Hl; rewrite Hl in Hnofail |- *.
  1,3,5-7: exfalso; rewrite ?Forall_app, ?Forall_cons in Hnofail;
           unfold is_failed in Hnofail; simpl in Hnofail; tauto.
  - split; [by eapply messages_of_hits_raises|]. split; [done|]. split; [done|].
    intros x ->%list_elem_of_singleton. eauto.
  - split; [by eapply messages_of_hits_raises|]. split; [done|]. split; [done|].
    intros x Hx. split_log Hx; eauto.
Qed.

Lemma X13_witness :
  (run (status_only scenario_conf) (world_of [anonymous_hit] T no_faults)).1
  = Raise (KeyError "id")
  ∧ queue (run (status_only scenario_conf) (world_of [anonymous_hit] T no_faults)).2 = [].
Proof.
  set (W := world_of [anonymous_hit] T no_faults).
  assert (Hr : (run (status_only scenario_conf) W).1 = Raise (KeyError "id"))
    by (vm_compute; reflexivity).
  split; [exact Hr|].
  refine (proj1 (proj2 (X13_a_bad_hit_stops_the_cycle_early _ W _ Hr _ _))).
  - vm_compute. discriminate.
  - vm_compute. repeat constructor; intros [].
Defined.

(** X14. The two searches of a cycle leave no gap, however the Source
    completes the bound. A document that passes the base search and has a
    modification time is matched by exactly one of the at-or-before and
    the strictly-after query for a cutoff; a document without a
    modification time is matched by neither, so it is never a candidate. *)
Theorem X14_every_timed_document_has_one_side (self : Publisher) (cutoff : Z)
    (up : bool) (d : Doc) :
  Source.matches (s_filters (Source.read up (search self))) d = true →
  let at_or_before :=
    Source.matches (s_filters (Source.read up (range_query self "lte" cutoff))) d in
  let strictly_after :=
    Source.matches (s_filters (Source.read up (range_query self "gt" cutoff))) d in
  match d !! "mod_time" with
  | Some (VTime t) => strictly_after = negb at_or_before
  | _ => at_or_before = false ∧ strictly_after = false
  end.
Proof.
  intros Hbase at_or_before strictly_after.
  assert (Hq : ∀ operator,
            Source.matches (s_filters (Source.read up (range_query self operator cutoff))) d
            = Source.clause_match
                (Source.read_clause up (Range "mod_time" [(operator, strftime cutoff)])) d).
  { intros operator. apply eq_true_iff_eq. rewrite matches_read_range_query. tauto. }
  unfold at_or_before, strictly_after. rewrite !Hq.
  destruct (range_sides up d (strftime cutoff)) as (b & _ & _ & _ & Hb1 & Hb2).
  destruct (d !! "mod_time") as [[| |t]|] eqn:Ht.
  1,2,4: split; apply not_true_iff_false;
         [intros (t' & [=] & _)%Hb1 | intros (t' & [=] & _)%Hb2].
  apply eq_true_iff_eq. rewrite negb_true_iff, <- not_true_iff_false, Hb1, Hb2.
  split.
  - intros (t1 & [= <-] & H1) (t2 & [= <-] & H2). lia.
  - intros Hno. exists t. split; [done|].
    destruct (Z_lt_le_dec b t); [done|]. destruct Hno. eauto.
Qed.

Lemma X14_witness :
  let at_or_before :=
    Source.matches
      (s_filters (Source.read true
                    (range_query (status_only scenario_conf) "lte" (T - 5 * minute))))
      doc_a in
  let strictly_after :=
    Source.matches
      (s_filters (Source.read true
                    (range_query (status_only scenario_conf) "gt" (T - 5 * minute))))
      doc_a in
  strictly_after = negb at_or_before.
Proof.
  assert (Hbase : Source.matches
                    (s_filters (Source.read true (search (status_only scenario_conf))))
                    doc_a = true) by (vm_compute; reflexivity).
  pose proof (X14_every_timed_document_has_one_side (status_only scenario_conf)
                (T - 5 * minute) true doc_a Hbase) as H.
  change (doc_a !! "mod_time") with (Some (VTime (T - 10 * minute))) in H.
  exact H.
Defined.

(** X15. A cycle that completes with nothing to publish does not stop
    short: it has made both searches, opened and closed the Sink, and sent
    the bulk update keyed on the empty list of identifiers; the Source is
    as it was. *)
Theorem X15_an_idle_cycle_makes_five_calls (self : Publisher) (w : World) :
  (run self w).1 = Ok tt →
  sent_since w (run self w).2 = [] →
  index (run self w).2 = index w
  ∧ ∃ h_old h_young,
      calls_since w (run self w).2
      = [(CSearch (range_query self "lte" (cutoff_of (conf self) w)), Hits h_old);
         (CSearch (range_query self "gt" (cutoff_of (conf self) w)), Hits h_young);
         (COpen, Done); (CClose, Done);
         (CUpdate (update_query self []), Done)].
Proof.
  intros Hok Hsent. pose proof (run_Cycle self w) as HC.
  destruct (run self w) as [r w']. simpl in *. subst r.
  inversion HC as [ | | | | | | | old young ? Ho Hy (Hl & Hq & Hi) ]; subst.
  rewrite (sent_since_app _ _ _ Hq) in Hsent. apply fmap_nil_inv in Hsent.
  rewrite Hsent in Hl, Hi. split.
  - rewrite Hi. apply updated_no_ids.
  - eexists _, _. apply calls_since_app. exact Hl.
Qed.

Lemma X15_witness :
  index (run (status_only scenario_conf) idle_world).2 = index idle_world.
Proof.
  refine (proj1 (X15_an_idle_cycle_makes_five_calls (status_only scenario_conf)
                   idle_world _ _));
    vm_compute; reflexivity.
Defined.

(** X16. With a base search that returns new documents only, every
    identifier in the candidate map of [get_messages] is the identifier of
    a document of the Source that has status "new" and a modification
    time. *)
Theorem X16_candidates_come_from_new_documents (self : Publisher) (operator : string)
    (cutoff : Z) (w : World) (msgs : PyDict.t) (k : Value) :
  selects_new self →
  (get_messages self operator cutoff w).1 = Ok msgs →
  k ∈ PyDict.keys msgs →
  ∃ d t, d ∈ index w
         ∧ d !! ID_KEY (conf self) = Some k
         ∧ d !! "status" = Some (VStr "new")
         ∧ d !! "mod_time" = Some (VTime t).
Proof.
  intros Hnew. unfold get_messages, bind, lift.
  destruct (Search_execute_inv (range_query self operator cutoff) w) as [[e ->]| ->];
    [done|].
  set (hits := found _ _). cbn [fst snd]. intros Hm Hk.
  destruct (messages_of_hits _ hits _) as [msgs'|] eqn:Hloop; [|done].
  injection Hm as ->.
  destruct (messages_of_hits_acc _ _ _ _ Hloop) as (_ & _ & Hkeys & _).
  apply Hkeys in Hk as [Hk|(d & Hd & Hid)]; [by apply elem_of_nil in Hk|].
  apply found_matches in Hd as [Hm Hd].
  apply matches_read_range_query in Hm as [Hbase Hrange].
  apply Hnew in Hbase.
  assert (∃ t, d !! "mod_time" = Some (VTime t)) as [t Ht].
  { unfold Source.read_clause, Source.clause_match in Hrange.
    destruct (d !! "mod_time") as [[| |t]|]; try done. eauto. }
  exists d, t. done.
Qed.

Lemma X16_witness :
  ∃ d, d ∈ index scenario_world ∧ d !! "id" = Some (VStr "a")
       ∧ d !! "status" = Some (VStr "new").
Proof.
  destruct (X16_candidates_come_from_new_documents (status_only scenario_conf) "lte"
              (T - 5 * minute) scenario_world [(VStr "a", message_a)] (VStr "a"))
    as (d & t & Hd & Hid & Hs & _).
  - apply status_only_selects_new.
  - vm_compute. reflexivity.
  - left.
  - exists d. repeat split; assumption.
Defined.

(** X17. No identifier is published by two cycles. Take a publisher whose
    base search returns new documents only and whose base update is the
    empty one of [__init__]. When its cycle has completed on a Source whose
    documents carry their identifier alike under [<ID_KEY>] and under
    [properties.<ID_KEY>], a later cycle on the Source as the first left it
    hands the Sink no message with a uri that the first cycle has
    published. *)
Theorem X17_no_republish_in_a_later_cycle (self : Publisher) (w w2 : World)
    (x : string * Message) (rk : string) (m : Message) (reply : Reply) :
  selects_new self →
  update self = UpdateByQuery_new →
  (run self w).1 = Ok tt →
  (∀ d, d ∈ index w → d !! ID_KEY (conf self) = d !! update_key (conf self)) →
  index w2 = index (run self w).2 →
  x ∈ sent_since w (run self w).2 →
  (CPublish rk m, reply) ∈ calls_since w2 (run self w2).2 →
  uri m ≠ uri x.2.
Proof.
  intros Hnew Hu Hok Hfields Hidx Hx Hpub. pose proof (run_Cycle self w) as HC.
  destruct (run self w) as [r w']. simpl in *. subst r.
  inversion HC as [ | | | | | | | old young ? Ho Hy (_ & Hq & Hi) ]; subst.
  rewrite (sent_since_app _ _ _ Hq) in Hx.
  apply list_elem_of_fmap in Hx as (m1 & -> & Hm1). simpl.
  apply cycle_publish_origin in Hpub as (d & t & Hd & Hmsg & Hbase & _).
  apply Hnew in Hbase. rewrite Hidx, Hi in Hd.
  destruct (new_after_update _ _ _ _ Hu Hd Hbase) as [Hd0 Hout].
  unfold message_of_hit in Hmsg.
  destruct (d !! ID_KEY (conf self)) as [k|] eqn:Hk; [|done].
  destruct (d !! "description_path"); [|done]. injection Hmsg as <-. simpl.
  intros ->. apply (Hout (uri m1)).
  - by rewrite <- (Hfields d Hd0).
  - unfold uris. apply list_elem_of_fmap. eauto.
Qed.

Lemma X17_witness :
  (CPublish "stac" message_b, Done)
    ∈ calls_since later_world (run (status_only scenario_conf) later_world).2
  ∧ uri message_b ≠ uri message_a.
Proof.
  assert (Hpub : (CPublish "stac" message_b, Done)
                   ∈ calls_since later_world
                       (run (status_only scenario_conf) later_world).2).
  { vm_compute. do 3 right. left. }
  split; [exact Hpub|].
  apply (X17_no_republish_in_a_later_cycle (status_only scenario_conf) scenario_world
           later_world ("stac", message_a) "stac" message_b Done).
  - apply status_only_selects_new.
  - reflexivity.
  - vm_compute. reflexivity.
  - intros d Hd. change (d ∈ [doc_a; doc_b]) in Hd.
    apply elem_of_cons in Hd as [->|Hd]; [vm_compute; reflexivity|].
    apply list_elem_of_singleton in Hd as ->. vm_compute. reflexivity.
  - vm_compute. reflexivity.
  - vm_compute. left.
  - exact Hpub.
Defined.
